(** * Term algebra of [qibo.core.terms]

    A shallow embedding of [HamiltonianTerm], [SymbolicTerm] and [TermGroup]
    (file [src/qibo/core/terms.py]) together with the fragment of the array
    backend ([K.np], [K.eye]) that these classes call.

    Conventions of the embedding:
    - Python's [complex] numbers are kept abstract (class [Scalars]): zero,
      one, the imaginary unit, addition and multiplication, with the laws
      that finite floating-point numbers satisfy exactly: both operations
      commute, [x * 1] is [x] and [x * 0] is [0].  Associativity and
      distributivity, which rounding breaks, are not assumed.  The instance
      [gaussian] (Gaussian integers) is used to run the code on concrete
      matrices.
    - An [ndarray] is a shape together with its elements in C (row-major)
      order, as numpy stores a contiguous array.
    - Exceptions are values of [exn]; fallible code lives in [result].
    - Lazily cached attributes ([_matrix], [_term]) are record fields of
      type [option _]; a property that fills its cache returns the updated
      object next to its value. *)

From Stdlib Require Import ZArith Lia.
From stdpp Require Import gmap strings list sorting.

Set Default Proof Using "Type".

(** ** Scalars *)

Class Scalars := {
  cplx : Type;
  c0 : cplx;
  c1 : cplx;
  ci : cplx;
  cadd : cplx → cplx → cplx;
  cmul : cplx → cplx → cplx;
  cadd_comm : ∀ x y, cadd x y = cadd y x;
  cmul_comm : ∀ x y, cmul x y = cmul y x;
  cmul_1_r : ∀ x, cmul x c1 = x;
  cmul_0_r : ∀ x, cmul x c0 = c0;
}.

(** Gaussian integers [re + im * i]. *)
Definition gadd (x y : Z * Z) : Z * Z := ((x.1 + y.1)%Z, (x.2 + y.2)%Z).
Definition gmul (x y : Z * Z) : Z * Z :=
  ((x.1 * y.1 - x.2 * y.2)%Z, (x.1 * y.2 + x.2 * y.1)%Z).

#[export] Program Instance gaussian : Scalars := {|
  cplx := Z * Z;
  c0 := (0%Z, 0%Z);
  c1 := (1%Z, 0%Z);
  ci := (0%Z, 1%Z);
  cadd := gadd;
  cmul := gmul;
|}.
Next Obligation. intros [a b] [c d]; unfold gadd; simpl; f_equal; lia. Qed.
Next Obligation. intros [a b] [c d]; unfold gmul; simpl; f_equal; lia. Qed.
Next Obligation. intros [a b]; unfold gmul; simpl; f_equal; lia. Qed.
Next Obligation. intros [a b]; unfold gmul; simpl; f_equal; lia. Qed.

(** ** Exceptions *)

Inductive exn : Set :=
  | TypeError
  | ValueError
  | IndexError
  | AttributeError
  | AssertionError
  | NotModelled.   (* a call that leaves the modelled fragment of numpy *)

Inductive result (A : Type) : Type :=
  | Ok (a : A)
  | Raise (e : exn).
Arguments Ok {A} a.
Arguments Raise {A} e.

#[export] Instance result_bind : MBind result := λ A B k r,
  match r with
  | Ok a => k a
  | Raise e => Raise e
  end.
#[export] Instance result_ret : MRet result := λ A a, Ok a.

(** ** The array backend *)

Record ndarray `{Scalars} := NdArray {
  shape : list nat;
  data : list cplx;
}.
Arguments NdArray {_} _ _.

(** The objects that reach a [matrix] argument, classified the way the
    constructors test them. *)
Inductive pyobj `{Scalars} :=
  | PyNone
  | PyNum (c : cplx)
  | PyTensor (a : ndarray)
  | PyOther (type_name : string).

(** Modelled from the spec: [K.qnp.numeric_types] and [K.qnp.tensor_types]
    are tuples of types declared by the backend, which is not part of the
    sources; the spec calls their members "numeric scalar" and "backend
    tensor type". *)
Definition is_numeric `{Scalars} (o : pyobj) : bool :=
  match o with PyNum _ => true | _ => false end.
Definition is_tensor `{Scalars} (o : pyobj) : bool :=
  match o with PyTensor _ => true | _ => false end.
Definition is_none `{Scalars} (o : pyobj) : bool :=
  match o with PyNone => true | _ => false end.

Module np.
Section backend.
Context `{Scalars}.

(** Number of elements of an array of the given shape. *)
Definition size (sh : list nat) : nat := foldr Nat.mul 1 sh.

(** Strides in elements of a C-contiguous array. *)
Fixpoint strides (sh : list nat) : list nat :=
  match sh with
  | [] => []
  | _ :: ds => size ds :: strides ds
  end.

(** [np.unravel_index]: the multi-index of a flat position. *)
Fixpoint unravel_index (flat : nat) (sh : list nat) : list nat :=
  match sh with
  | [] => []
  | _ :: ds => flat / size ds :: unravel_index (flat mod size ds) ds
  end.

(** Offset of a multi-index under the given strides. *)
Definition offset (idx st : list nat) : nat :=
  sum_list (zip_with Nat.mul idx st).

Definition dim (i : nat) (a : ndarray) : nat := nth i (shape a) 0.

(** [a[i, j]] of a two-dimensional array. *)
Definition get2 (a : ndarray) (i j : nat) : cplx :=
  nth (i * dim 1 a + j) (data a) c0.

Definition tabulate (n : nat) (f : nat → cplx) : list cplx :=
  f <$> seq 0 n.

(** [K.eye(n)] *)
Definition eye (n : nat) : ndarray :=
  NdArray [n; n]
    (tabulate (n * n) (λ f, if f / n =? f mod n then c1 else c0)).

(** [np.kron] of two matrices:
    [kron(a, b)[i * p + k, j * q + l] = a[i, j] * b[k, l]]
    for [b] of shape [(p, q)]. *)
Definition kron2 (a b : ndarray) : ndarray :=
  let rows := dim 0 a * dim 0 b in
  let cols := dim 1 a * dim 1 b in
  NdArray [rows; cols]
    (tabulate (rows * cols) (λ f,
       let r := f / cols in
       let c := f mod cols in
       cmul (get2 a (r / dim 0 b) (c / dim 1 b))
            (get2 b (r mod dim 0 b) (c mod dim 1 b)))).

(** [x * a] for a scalar [x]. *)
Definition scale (x : cplx) (a : ndarray) : ndarray :=
  NdArray (shape a) (cmul x <$> data a).

(** [np.kron] on the objects it receives here: a scalar is a
    zero-dimensional array, so that [kron(x, a) = x * a]. *)
Definition kron (x y : pyobj) : result pyobj :=
  match x, y with
  | PyNum a, PyNum b => Ok (PyNum (cmul a b))
  | PyNum a, PyTensor b => Ok (PyTensor (scale a b))
  | PyTensor a, PyNum b =>
      Ok (PyTensor (NdArray (shape a) ((λ v, cmul v b) <$> data a)))
  | PyTensor a, PyTensor b =>
      if bool_decide (length (shape a) = 2 ∧ length (shape b) = 2)
      then Ok (PyTensor (kron2 a b))
      else Raise NotModelled
  | _, _ => Raise TypeError
  end.

(** [np.reshape(a, newshape)] of a contiguous array keeps the elements in
    place; it raises when the sizes differ. *)
Definition reshape (a : ndarray) (newshape : list nat) : result ndarray :=
  if size newshape =? length (data a)
  then Ok (NdArray newshape (data a))
  else Raise ValueError.

(** [np.asarray]: a scalar is a zero-dimensional array. *)
Definition asarray (x : pyobj) : result ndarray :=
  match x with
  | PyNum c => Ok (NdArray [] [c])
  | PyTensor a => Ok a
  | _ => Raise NotModelled
  end.

Definition reshape_obj (x : pyobj) (newshape : list nat) : result ndarray :=
  a ← asarray x; reshape a newshape.

Definition is_axes (axes : list nat) (n : nat) : bool :=
  (length axes =? n) && forallb (λ j, existsb (Nat.eqb j) axes) (seq 0 n).

(** [np.transpose(a, axes)]: axis [i] of the result is axis [axes[i]] of
    [a], so the result has the permuted shape and the permuted strides. *)
Definition transpose (a : ndarray) (axes : list nat) : result ndarray :=
  if is_axes axes (length (shape a)) then
    let sh := (λ ax, nth ax (shape a) 0) <$> axes in
    let st := (λ ax, nth ax (strides (shape a)) 0) <$> axes in
    Ok (NdArray sh
          (tabulate (size sh) (λ f,
             nth (offset (unravel_index f sh) st) (data a) c0)))
  else Raise ValueError.

(** [a + b] for arrays of one shape. Broadcasting between different
    shapes is outside the fragment. *)
Definition add_arrays (a b : ndarray) : result ndarray :=
  if bool_decide (shape a = shape b)
  then Ok (NdArray (shape a) (zip_with cadd (data a) (data b)))
  else Raise NotModelled.

(** [x + y] *)
Definition add (x y : pyobj) : result pyobj :=
  match x, y with
  | PyNum a, PyNum b => Ok (PyNum (cadd a b))
  | PyNum a, PyTensor b =>
      Ok (PyTensor (NdArray (shape b) (cadd a <$> data b)))
  | PyTensor a, PyNum b =>
      Ok (PyTensor (NdArray (shape a) ((λ v, cadd v b) <$> data a)))
  | PyTensor a, PyTensor b => r ← add_arrays a b; Ok (PyTensor r)
  | _, _ => Raise TypeError
  end.

(** [x * y] for a scalar [x] *)
Definition mul (x : cplx) (y : pyobj) : result pyobj :=
  match y with
  | PyNum b => Ok (PyNum (cmul x b))
  | PyTensor b => Ok (PyTensor (scale x b))
  | _ => Raise TypeError
  end.

(** The product of two matrices: [(a @ b)[i, j] = sum_k a[i, k] * b[k, j]]. *)
Definition matmul2 (a b : ndarray) : ndarray :=
  let rows := dim 0 a in
  let cols := dim 1 b in
  NdArray [rows; cols]
    (tabulate (rows * cols) (λ f,
       foldl (λ acc k, cadd acc (cmul (get2 a (f / cols) k)
                                     (get2 b k (f mod cols))))
             c0 (seq 0 (dim 1 a)))).

(** [a @ b] for two matrices; it raises when the inner dimensions
    differ. *)
Definition matmul (a b : ndarray) : result ndarray :=
  if bool_decide (length (shape a) = 2 ∧ length (shape b) = 2) then
    if dim 1 a =? dim 0 b then Ok (matmul2 a b) else Raise ValueError
  else Raise NotModelled.

End backend.
End np.

(** ** [HamiltonianTerm] *)

(** A gate object held in the [_gate] cache of a term, recorded by the
    matrix and the targets it was built from.  The gate engine is an
    external collaborator: the [gate] property, [expgate] and [__call__],
    which call into it, are not part of the embedding. *)
Record Unitary `{Scalars} := MkUnitary {
  gate_matrix : pyobj;
  gate_targets : list nat;
}.
Arguments MkUnitary {_} _ _.

Module HamiltonianTerm.
Section term.
Context `{Scalars}.

Record t := Make {
  target_qubits : list nat;
  _gate : option Unitary;
  hamiltonian : option nat;   (* the owning aggregate, if any *)
  _matrix : pyobj;
}.

Definition __init__ (matrix : pyobj) (q : list nat) : result t :=
  if negb (is_none matrix || is_numeric matrix || is_tensor matrix)
  then Raise TypeError
  else Ok (Make q None None matrix).

Definition matrix (self : t) : pyobj := _matrix self.

Definition __len__ (self : t) : nat := length (target_qubits self).

(** [tuple.index(x)] for an [x] that occurs in the tuple (the callers
    test [x in tuple] first). *)
Fixpoint index (x : nat) (l : list nat) : nat :=
  match l with
  | [] => 0
  | y :: l' => if bool_decide (y = x) then 0 else S (index x l')
  end.

(** The loop of [merge] that builds [order], started with counter [i]. *)
Fixpoint merge_order (self_qubits term_qubits : list nat) (i : nat)
  : list nat :=
  match self_qubits with
  | [] => []
  | qubit :: rest =>
      if bool_decide (qubit ∈ term_qubits)
      then index qubit term_qubits :: merge_order rest term_qubits i
      else i :: merge_order rest term_qubits (S i)
  end.

(** [merge] and [__mul__] build their result with [self.__class__];
    here they are given for receivers of this class, for which that is
    the constructor above.  [SymbolicTerm] overrides [__mul__] and
    inherits [merge]: see [SymbolicTerm.merge]. *)
Definition merge (self term : t) : result t :=
  if __len__ self <? __len__ term
  then Raise TypeError   (* [2 ** negative] is a float, refused by [eye] *)
  else
    matrix0 ← np.kron (matrix term)
                (PyTensor (np.eye (2 ^ (__len__ self - __len__ term))));
    matrix1 ← np.reshape_obj matrix0 (replicate (2 * __len__ self) 2);
    let order := merge_order (target_qubits self) (target_qubits term)
                   (__len__ term) in
    let order := order ++ ((λ x, x + length order) <$> order) in
    matrix2 ← np.transpose matrix1 order;
    matrix3 ← np.reshape matrix2 (replicate 2 (2 ^ __len__ self));
    sum ← np.add (matrix self) (PyTensor matrix3);
    __init__ sum (target_qubits self).

Definition __mul__ (self : t) (x : cplx) : result t :=
  prod ← np.mul x (matrix self);
  __init__ prod (target_qubits self).

Definition __rmul__ (self : t) (x : cplx) : result t := __mul__ self x.

End term.
End HamiltonianTerm.

(** ** [SymbolicTerm] *)

(** Modelled from the spec: [qibo.symbols.Symbol] is not part of the
    sources; the spec describes a Qibo symbol as a named symbol "tagged with
    its own target qubit" and a matrix, which is either a genuine tensor or
    a scalar value. *)
Record Symbol `{Scalars} := MkSymbol {
  symbol_name : string;
  target_qubit : nat;
  symbol_matrix : pyobj;
}.
Arguments MkSymbol {_} _ _ _.

(** The factors that [as_ordered_factors] of the symbolic engine hands
    over, classified the way [from_factors] tests them. *)
Inductive atom `{Scalars} :=
  | QiboSymbol (s : Symbol)         (* a [sympy.Symbol] carrying a matrix *)
  | SympySymbol (name : string)     (* a plain [sympy.Symbol] *)
  | ImaginaryUnit                   (* [sympy.I] *)
  | OtherExpr (repr : string).      (* anything else *)

Inductive exponent :=
  | IntegerExp (n : Z)              (* a [sympy.Integer] *)
  | OtherExp.

Inductive factor `{Scalars} :=
  | Atom (a : atom)
  | Pow (base : atom) (exp : exponent).   (* [sympy.Pow], [args = (base, exp)] *)

Inductive expr `{Scalars} :=
  | One                                     (* [factors == 1] *)
  | OrderedProduct (as_ordered_factors : list factor).

Module SymbolicTerm.
Section term.
Context `{Scalars}.

Record t := Make {
  coefficient : cplx;
  factors : list Symbol;
  matrix_map : gmap nat (list ndarray);
  _matrix : option pyobj;        (* [None] until first read *)
  _gate : option Unitary;
  hamiltonian : option nat;
  target_qubits : list nat;
}.

(** [complex(x)] of a number is the number. *)
Definition complex (x : cplx) : cplx := x.

(** [sorted(d.keys())] *)
Definition sorted_keys {V} (d : gmap nat V) : list nat :=
  merge_sort (≤) (elements (dom d)).

Definition __init__ (coefficient : cplx) (factors : list Symbol)
    (matrix_map : gmap nat (list ndarray)) : t :=
  Make (complex coefficient) factors matrix_map None None None
       (sorted_keys matrix_map).

(** [cls(coefficient)]: both defaults are the empty containers. *)
Definition __init__default (coefficient : cplx) : t :=
  __init__ coefficient [] ∅.

(** [pow * [x]] *)
Definition times_list {A} (pow : Z) (x : A) : list A :=
  replicate (Z.to_nat pow) x.

Definition is_sympy_symbol (a : atom) : bool :=
  match a with QiboSymbol _ | SympySymbol _ => true | _ => false end.

Definition atom_name (a : atom) : result string :=
  match a with
  | QiboSymbol s => Ok (symbol_name s)
  | SympySymbol n => Ok n
  | _ => Raise AttributeError
  end.

(** The state of the loop of [from_factors]. *)
Record parse_state := Parse {
  p_coefficient : cplx;
  p_factors : list Symbol;
  p_matrix_map : gmap nat (list ndarray);
}.

(** [symbol_map] is a dictionary from symbols to pairs; only its lookup
    is used. *)
Definition symbol_map_t := option (atom → option (nat * pyobj)).

(** First part of the loop body: split a power. *)
Definition split_power (f : factor) : result (atom * Z) :=
  match f with
  | Pow base exp =>
      match exp with
      | IntegerExp n =>
          if is_sympy_symbol base then Ok (base, n)
          else Raise AssertionError
      | OtherExp => Raise AssertionError
      end
  | Atom a => Ok (a, 1%Z)
  end.

(** Second part: substitute through [symbol_map]. *)
Definition substitute (symbol_map : symbol_map_t) (a : atom) : result atom :=
  match symbol_map with
  | Some lookup =>
      match lookup a with
      | Some (q, matrix) =>
          name ← atom_name a; Ok (QiboSymbol (MkSymbol name q matrix))
      | None => Ok a
      end
  | None => Ok a
  end.

(** Third part: record the factor. *)
Definition record (st : parse_state) (a : atom) (pow : Z)
  : result parse_state :=
  match a with
  | QiboSymbol s =>
      match symbol_matrix s with
      | PyTensor m =>
          let q := target_qubit s in
          Ok (Parse (p_coefficient st)
                (p_factors st ++ times_list pow s)
                (match p_matrix_map st !! q with
                 | Some l => <[q := l ++ times_list pow m]> (p_matrix_map st)
                 | None => <[q := times_list pow m]> (p_matrix_map st)
                 end))
      | PyNum c =>
          Ok (Parse (cmul (p_coefficient st) c) (p_factors st)
                (p_matrix_map st))
      | _ => Raise TypeError
      end
  | SympySymbol _ => Raise AttributeError   (* no [matrix] attribute *)
  | ImaginaryUnit =>
      Ok (Parse (cmul (p_coefficient st) ci) (p_factors st)
            (p_matrix_map st))
  | OtherExpr _ => Raise TypeError
  end.

Definition parse_factor (symbol_map : symbol_map_t) (st : parse_state)
    (f : factor) : result parse_state :=
  '(a, pow) ← split_power f;
  a ← substitute symbol_map a;
  record st a pow.

Fixpoint parse_loop (symbol_map : symbol_map_t) (st : parse_state)
    (fs : list factor) : result parse_state :=
  match fs with
  | [] => Ok st
  | f :: fs' =>
      st' ← parse_factor symbol_map st f; parse_loop symbol_map st' fs'
  end.

Definition from_factors (coefficient : cplx) (factors : expr)
    (symbol_map : symbol_map_t) : result t :=
  match factors with
  | One => Ok (__init__default coefficient)
  | OrderedProduct fs =>
      st ← parse_loop symbol_map (Parse coefficient [] ∅) fs;
      Ok (__init__ (p_coefficient st) (p_factors st) (p_matrix_map st))
  end.

(** The local function [matrices_product] of the [matrix] property; its
    argument is [matrix_map.get(q)]. *)
Definition matrices_product (matrices : option (list ndarray))
  : result ndarray :=
  match matrices with
  | None => Raise TypeError
  | Some ms =>
      if length ms =? 1 then
        match ms with m :: _ => Ok m | [] => Raise IndexError end
      else
        match ms with
        | [] => Raise IndexError
        | m0 :: rest =>
            foldl (λ acc m, matrix ← acc; np.matmul matrix m) (Ok m0) rest
        end
  end.

(** The loop over [target_qubits]; next to the outcome it returns the
    value left in [_matrix], which is assigned at every round. *)
Fixpoint matrix_loop (mm : gmap nat (list ndarray)) (acc : pyobj)
    (qs : list nat) : result pyobj * pyobj :=
  match qs with
  | [] => (Ok acc, acc)
  | q :: qs' =>
      match (m ← matrices_product (mm !! q); np.kron acc (PyTensor m)) with
      | Ok acc' => matrix_loop mm acc' qs'
      | Raise e => (Raise e, acc)
      end
  end.

Definition set_matrix (self : t) (m : option pyobj) : t :=
  Make (coefficient self) (factors self) (matrix_map self) m
       (_gate self) (hamiltonian self) (target_qubits self).

(** The [matrix] property: the value read and the object afterwards. *)
Definition matrix (self : t) : result pyobj * t :=
  match _matrix self with
  | None =>
      let '(r, cached) :=
        matrix_loop (matrix_map self) (PyNum (coefficient self))
          (target_qubits self) in
      (r, set_matrix self (Some cached))
  | Some m => (Ok m, self)
  end.

Definition __mul__ (self : t) (x : cplx) : t :=
  let new := __init__ (coefficient self) (factors self) (matrix_map self) in
  Make (cmul (coefficient new) x) (factors new) (matrix_map new)
       (_matrix self) (_gate self) (hamiltonian new) (target_qubits new).

(** *** The inherited [merge]

    [SymbolicTerm] does not override [HamiltonianTerm.merge].  For a
    receiver of this class [self.matrix] is the property above, and
    [self.__class__(self.matrix + matrix, *self.target_qubits)] calls the
    constructor of [SymbolicTerm] with the array in the place of
    [coefficient] and the qubits in the places of [factors] and
    [matrix_map]. *)

(** [complex(x)].  An array of more than one element is refused with
    [TypeError]; what numpy does with an array of one element depends on
    its version. *)
Definition complex_of (x : pyobj) : result cplx :=
  match x with
  | PyNum c => Ok (complex c)
  | PyTensor a =>
      if np.size (shape a) =? 1 then Raise NotModelled
      else Raise TypeError
  | PyNone => Raise TypeError
  | PyOther _ => Raise NotModelled
  end.

(** [SymbolicTerm(x, *q)]: a call with more than three positional
    arguments is refused before the body runs; then [complex(x)]; then
    [matrix_map.keys()], where [matrix_map] is the second qubit. *)
Definition __init__positional (x : pyobj) (q : list nat) : result t :=
  if 2 <? length q then Raise TypeError
  else
    coefficient ← complex_of x;
    match q with
    | [] => Ok (__init__default coefficient)
    | [_] => Raise NotModelled      (* [factors] is an [int] *)
    | _ => Raise AttributeError     (* an [int] has no [keys] *)
    end.

(** The argument of [merge]: a term of either class. *)
Inductive operand :=
  | BaseTerm (term : HamiltonianTerm.t)
  | SymTerm (term : t).

(** [term.target_qubits] and [term.matrix] of the argument. *)
Definition operand_qubits (term : operand) : list nat :=
  match term with
  | BaseTerm b => HamiltonianTerm.target_qubits b
  | SymTerm s => target_qubits s
  end.

Definition operand_matrix (term : operand) : result pyobj :=
  match term with
  | BaseTerm b => Ok (HamiltonianTerm.matrix b)
  | SymTerm s => (matrix s).1
  end.

(** [self.merge(term)] for a receiver of this class: the outcome of the
    call.  (The two reads of [matrix] also fill the caches of [term] and
    of [self].) *)
Definition merge (self : t) (term : operand) : result t :=
  let n := length (target_qubits self) in
  let m := length (operand_qubits term) in
  term_matrix ← operand_matrix term;
  if n <? m
  then Raise TypeError   (* [2 ** negative] is a float, refused by [eye] *)
  else
    matrix0 ← np.kron term_matrix (PyTensor (np.eye (2 ^ (n - m))));
    matrix1 ← np.reshape_obj matrix0 (replicate (2 * n) 2);
    let order := HamiltonianTerm.merge_order (target_qubits self)
                   (operand_qubits term) m in
    let order := order ++ ((λ x, x + length order) <$> order) in
    matrix2 ← np.transpose matrix1 order;
    matrix3 ← np.reshape matrix2 (replicate 2 (2 ^ n));
    self_matrix ← (matrix self).1;
    sum ← np.add self_matrix (PyTensor matrix3);
    __init__positional sum (target_qubits self).

End term.
End SymbolicTerm.

(** ** [TermGroup] *)

(** What [TermGroup] uses of its members. Grouping reads
    [target_qubits] only, which both term classes have; folding a group
    also scales and merges. *)
Class Qubits (T : Type) := qubits : T → list nat.   (* [term.target_qubits] *)

Class Term `{Scalars} (T : Type) := {
  term_qubits :: Qubits T;
  owner : T → option nat;             (* [term.hamiltonian] *)
  times : T → cplx → result T;        (* [term * c] *)
  merge_with : T → T → result T;      (* [term.merge(other)] *)
}.

#[export] Instance HamiltonianTerm_Qubits `{Scalars}
  : Qubits HamiltonianTerm.t := HamiltonianTerm.target_qubits.
#[export] Instance SymbolicTerm_Qubits `{Scalars}
  : Qubits SymbolicTerm.t := SymbolicTerm.target_qubits.

#[export] Instance HamiltonianTerm_Term `{Scalars} : Term HamiltonianTerm.t := {|
  owner := HamiltonianTerm.hamiltonian;
  times := HamiltonianTerm.__mul__;
  merge_with := HamiltonianTerm.merge;
|}.

Module TermGroup.
Section group.
Context {T : Type} `{!Qubits T}.

Record t := Make {
  members : list T;                 (* the list the class extends *)
  target_qubits : gset nat;
  _term : option T;
}.

(** [len(term)] *)
Definition len (term : T) : nat := length (qubits term).

(** [set(term.target_qubits)] *)
Definition support (term : T) : gset nat := list_to_set (qubits term).

Definition __init__ (term : T) : t := Make [term] (support term) None.

Definition append (self : t) (term : T) : t :=
  Make (members self ++ [term]) (target_qubits self ∪ support term) None.

Definition can_append (self : t) (term : T) : bool :=
  bool_decide (support term ⊆ target_qubits self).

(** First loop of [from_terms]: the buckets by arity. *)
Definition bucket (orders : gmap nat (list T)) (term : T)
  : gmap nat (list T) :=
  match orders !! len term with
  | Some l => <[len term := l ++ [term]]> orders
  | None => <[len term := [term]]> orders
  end.

Definition buckets (terms : list T) : gmap nat (list T) :=
  foldl bucket ∅ terms.

(** [sorted(orders.keys())[::-1]] *)
Definition arities (orders : gmap nat (list T)) : list nat :=
  reverse (merge_sort (≤) (elements (dom orders))).

(** The children in the order in which the second loop visits them. *)
Definition children (orders : gmap nat (list T)) : list T :=
  arities orders ≫= λ order, default [] (orders !! order).

(** The inner loop together with the [if flag]: [child] goes to the
    first group that can take it, else to a new group at the end. *)
Definition place (groups : list t) (child : T) : list t :=
  match list_find (λ group, can_append group child = true) groups with
  | Some (i, group) => <[i := append group child]> groups
  | None => groups ++ [__init__ child]
  end.

Definition from_terms (terms : list T) : list t :=
  foldl place [] (children (buckets terms)).

(** The successive moments of the second loop: the groups as they are
    when [child] is about to be placed. *)
Fixpoint moments (groups : list t) (cs : list T) : list (list t * T) :=
  match cs with
  | [] => []
  | child :: cs' => (groups, child) :: moments (place groups child) cs'
  end.

Definition from_terms_moments (terms : list T) : list (list t * T) :=
  moments [] (children (buckets terms)).

End group.

Section folding.
Context `{Scalars} {T : Type} `{!Term T}.

(** [term * c if c is not None else term] with
    [c = coefficients.get(term.hamiltonian)] *)
Definition rescaled (coefficients : gmap (option nat) cplx) (term : T)
  : result T :=
  match coefficients !! owner term with
  | Some c => times term c
  | None => Ok term
  end.

(** The loop of [to_term] over [self[1:]]. *)
Fixpoint fold_merge (coefficients : gmap (option nat) cplx) (merged : T)
    (rest : list T) : result T :=
  match rest with
  | [] => Ok merged
  | term :: rest' =>
      term' ← rescaled coefficients term;
      merged' ← merge_with merged term';
      fold_merge coefficients merged' rest'
  end.

Definition to_term (self : t) (coefficients : gmap (option nat) cplx)
  : result T :=
  match members self with
  | [] => Raise IndexError
  | first :: rest =>
      merged ← rescaled coefficients first;
      fold_merge coefficients merged rest
  end.

(** The calls [merged.merge(term')] that [to_term] makes, as pairs of
    receiver and argument, in the order of the loop. *)
Fixpoint merge_calls (coefficients : gmap (option nat) cplx) (merged : T)
    (rest : list T) : list (T * T) :=
  match rest with
  | [] => []
  | term :: rest' =>
      match rescaled coefficients term with
      | Ok term' =>
          (merged, term') ::
          match merge_with merged term' with
          | Ok merged' => merge_calls coefficients merged' rest'
          | Raise _ => []
          end
      | Raise _ => []
      end
  end.

Definition to_term_calls (self : t)
    (coefficients : gmap (option nat) cplx) : list (T * T) :=
  match members self with
  | [] => []
  | first :: rest =>
      match rescaled coefficients first with
      | Ok merged => merge_calls coefficients merged rest
      | Raise _ => []
      end
  end.

(** The [term] property: the value read and the group afterwards. *)
Definition term (self : t) : result (T * t) :=
  match _term self with
  | None =>
      merged ← to_term self ∅;
      Ok (merged, Make (members self) (target_qubits self) (Some merged))
  | Some merged => Ok (merged, self)
  end.

End folding.
End TermGroup.


(** ** Reading the matrix of a symbolic term *)

Section symbolic_reading.
Context `{Scalars}.

(** The ordered left-to-right product of a non-empty list of matrices. *)
Definition ordered_product (ms : list ndarray) : ndarray :=
  match ms with
  | [] => np.eye 2
  | m :: rest => foldl np.matmul2 m rest
  end.

(** The chain [kron(... kron(kron(c, m1), m2) ..., mn)] with the
    coefficient as leftmost factor. *)
Definition kron_chain (c : cplx) (ms : list ndarray) : pyobj :=
  match ms with
  | [] => PyNum c
  | m :: rest => PyTensor (foldl np.kron2 (np.scale c m) rest)
  end.

(** The symbol a factor stands for once [symbol_map] is applied. *)
Definition resolve (symbol_map : SymbolicTerm.symbol_map_t) (a : atom)
  : atom :=
  match symbol_map with
  | Some lookup =>
      match lookup a, a with
      | Some (q, matrix), QiboSymbol s =>
          QiboSymbol (MkSymbol (symbol_name s) q matrix)
      | Some (q, matrix), SympySymbol name =>
          QiboSymbol (MkSymbol name q matrix)
      | _, _ => a
      end
  | None => a
  end.

(** The matrices that one factor of the product puts on qubit [q]: a
    tensor-valued symbol on [q] counts as often as its power says. *)
Definition contribution (symbol_map : SymbolicTerm.symbol_map_t) (q : nat)
    (f : factor) : list ndarray :=
  let '(a, pow) :=
    match f with
    | Atom a => (a, 1%Z)
    | Pow a (IntegerExp n) => (a, n)
    | Pow a OtherExp => (a, 0%Z)
    end in
  match resolve symbol_map a with
  | QiboSymbol s =>
      match symbol_matrix s with
      | PyTensor m =>
          if decide (target_qubit s = q) then replicate (Z.to_nat pow) m
          else []
      | _ => []
      end
  | _ => []
  end.

(** All matrices on qubit [q], in the textual order of the factors. *)
Definition recorded (symbol_map : SymbolicTerm.symbol_map_t) (q : nat)
    (fs : list factor) : list ndarray :=
  fs ≫= contribution symbol_map q.

Definition is_2x2 (m : ndarray) : Prop := shape m = [2; 2].

End symbolic_reading.

(** ** Pauli matrices over the Gaussian integers *)

Definition gint (n : Z) : @cplx gaussian := (n, 0%Z).
Definition pauli_I : @ndarray gaussian :=
  NdArray [2; 2] [gint 1; gint 0; gint 0; gint 1].
Definition pauli_X : @ndarray gaussian :=
  NdArray [2; 2] [gint 0; gint 1; gint 1; gint 0].
Definition pauli_Z : @ndarray gaussian :=
  NdArray [2; 2] [gint 1; gint 0; gint 0; gint (-1)].

(** The symbols [X(q)] of [qibo.symbols]. *)
Definition sym_X (q : nat) : @Symbol gaussian :=
  MkSymbol "X" q (PyTensor pauli_X).

(** ** Reading [merge] per qubit *)

Section embedding.
Context `{Scalars}.

(** The [k] binary digits of an index, most significant first: the
    values it takes along the [k] qubit axes. *)
Fixpoint bits (k : nat) (x : nat) : list nat :=
  match k with
  | 0 => []
  | S k' => x / 2 ^ k' :: bits k' (x mod 2 ^ k')
  end.

Fixpoint from_bits (bs : list nat) : nat :=
  match bs with
  | [] => 0
  | b :: bs' => b * 2 ^ length bs' + from_bits bs'
  end.

(** The digit of [bs] on the axis of qubit [q], for axes ordered as
    the tuple [qs]. *)
Definition digit (qs : list nat) (bs : list nat) (q : nat) : nat :=
  nth (HamiltonianTerm.index q qs) bs 0.

(** Entry [(r, c)] of the operator [b] over the qubits [qb], tensored
    with the identity on the other qubits of [qa], in the axis order of
    [qa]. *)
Definition embed (qa qb : list nat) (b : ndarray) (r c : nat) : cplx :=
  let br := bits (length qa) r in
  let bc := bits (length qa) c in
  if forallb (λ q, bool_decide (q ∈ qb)
                   || (digit qa br q =? digit qa bc q)) qa
  then np.get2 b (from_bits (digit qa br <$> qb))
                 (from_bits (digit qa bc <$> qb))
  else c0.

(** A [2^k × 2^k] matrix with all its elements. *)
Definition is_operator (k : nat) (m : ndarray) : Prop :=
  shape m = [2 ^ k; 2 ^ k] ∧ length (data m) = 2 ^ k * 2 ^ k.

End embedding.

(** ** Notions used in the proofs *)

(** The digits that an index has on the qubits of [qb], and on the other
    qubits of [qa], read as numbers. *)
Definition gathered (qa qb bs : list nat) : nat :=
  from_bits (digit qa bs <$> qb).
Definition remaining (qa qb bs : list nat) : nat :=
  from_bits (digit qa bs <$> filter (λ q, q ∉ qb) qa).

Section proof_notions.
Context `{Scalars}.

(** One round of the loop of the [matrix] property, once the product on
    the qubit is known. *)
Definition kron_step (acc : pyobj) (m : ndarray) : pyobj :=
  match acc with
  | PyNum c => PyTensor (np.scale c m)
  | PyTensor a => PyTensor (np.kron2 a m)
  | other => other
  end.

Definition chainable (acc : pyobj) : Prop :=
  match acc with
  | PyNum _ => True
  | PyTensor a => length (shape a) = 2
  | _ => False
  end.

(** Every qubit of [qs] has a non-empty list of 2×2 matrices. *)
Definition well_formed (mm : gmap nat (list ndarray)) (qs : list nat)
  : Prop :=
  ∀ q, q ∈ qs → ∃ ms, mm !! q = Some ms ∧ ms ≠ [] ∧ Forall is_2x2 ms.

Context {T : Type} `{!Qubits T}.

(** The terms of one arity, in their original order. *)
Definition of_arity (o : nat) (terms : list T) : list T :=
  filter (λ term, TermGroup.len term = o) terms.

(** A group keeps the support of its first member, and every later
    member fits inside it. *)
Definition seeded (group : @TermGroup.t T) : Prop :=
  ∃ seed rest,
    TermGroup.members group = seed :: rest
    ∧ TermGroup.target_qubits group = TermGroup.support seed
    ∧ Forall (λ term, TermGroup.support term ⊆ TermGroup.support seed)
        rest.

(** One child placed the way the spec allows: appended to a group whose
    [target_qubits] already contain its support, or seeding a new
    singleton group at the end of the list. *)
Inductive placed (child : T) : list (@TermGroup.t T)
    → list (@TermGroup.t T) → Prop :=
  | placed_append groups i group :
      groups !! i = Some group →
      TermGroup.support child ⊆ TermGroup.target_qubits group →
      placed child groups (<[i := TermGroup.append group child]> groups)
  | placed_seed groups :
      placed child groups (groups ++ [TermGroup.__init__ child]).

(** The lists of groups that are reached from no group at all by
    placing the terms of a list one after the other. *)
Inductive grouping : list T → list (@TermGroup.t T) → Prop :=
  | grouping_nil : grouping [] []
  | grouping_snoc cs child groups groups' :
      grouping cs groups → placed child groups groups' →
      grouping (cs ++ [child]) groups'.

End proof_notions.

(** Two base terms to run the code on: [Z⊗Z] over qubits [(0, 1)] and [X]
    over qubit [(0,)]. *)
Definition term_ZZ : @HamiltonianTerm.t gaussian :=
  HamiltonianTerm.Make [0; 1] None None
    (PyTensor (np.kron2 pauli_Z pauli_Z)).
Definition term_X : @HamiltonianTerm.t gaussian :=
  HamiltonianTerm.Make [0] None None (PyTensor pauli_X).

(** ** Reading a group of base terms *)

Section group_reading.
Context `{Scalars}.

(** A base term as the constructor is meant to be used: distinct qubits
    and a [2^k × 2^k] array over them. *)
Definition well_shaped (term : HamiltonianTerm.t) : Prop :=
  NoDup (HamiltonianTerm.target_qubits term)
  ∧ ∃ m, HamiltonianTerm.matrix term = PyTensor m
         ∧ is_operator (length (HamiltonianTerm.target_qubits term)) m.

(** The array of a term's matrix. *)
Definition operator (term : HamiltonianTerm.t) : ndarray :=
  match HamiltonianTerm.matrix term with
  | PyTensor m => m
  | _ => NdArray [] []
  end.

(** The array that [to_term] folds for a member: scaled by the
    coefficient registered for the member's owner, if there is one. *)
Definition rescaled_operator (coefficients : gmap (option nat) cplx)
    (term : HamiltonianTerm.t) : ndarray :=
  match coefficients !! HamiltonianTerm.hamiltonian term with
  | Some c => np.scale c (operator term)
  | None => operator term
  end.

End group_reading.

(** No member of a group fits into a group created before it. *)
Definition first_fit {T : Type} `{!Qubits T} (groups : list (@TermGroup.t T))
  : Prop :=
  ∀ i j gi gj term,
    i < j → groups !! i = Some gi → groups !! j = Some gj →
    term ∈ TermGroup.members gj →
    ¬ (TermGroup.support term ⊆ TermGroup.target_qubits gi).

(** The first member of a group has the most qubits. *)
Definition seed_largest {T : Type} `{!Qubits T} (group : @TermGroup.t T)
  : Prop :=
  ∀ seed rest,
    TermGroup.members group = seed :: rest →
    Forall (λ term, TermGroup.len term ≤ TermGroup.len seed) rest.

(** ** Reading the result of [from_factors] *)

Section factors_reading.
Context `{Scalars}.

(** The power and symbol of a factor, as [from_factors] splits it. *)
Definition base_and_power (f : factor) : atom * Z :=
  match f with
  | Atom a => (a, 1%Z)
  | Pow a (IntegerExp n) => (a, n)
  | Pow a OtherExp => (a, 0%Z)
  end.

(** The number that one factor contributes to the coefficient: the value
    of a scalar-valued symbol, or the imaginary unit. *)
Definition scalar_part (symbol_map : SymbolicTerm.symbol_map_t) (f : factor)
  : list cplx :=
  match resolve symbol_map (base_and_power f).1 with
  | QiboSymbol s =>
      match symbol_matrix s with
      | PyNum v => [v]
      | _ => []
      end
  | ImaginaryUnit => [ci]
  | _ => []
  end.

(** The qubit of a factor that is a tensor-valued symbol. *)
Definition tensor_qubit (symbol_map : SymbolicTerm.symbol_map_t) (f : factor)
  : list nat :=
  match resolve symbol_map (base_and_power f).1 with
  | QiboSymbol s =>
      match symbol_matrix s with
      | PyTensor _ => [target_qubit s]
      | _ => []
      end
  | _ => []
  end.

(** The symbols that one factor appends to [factors]. *)
Definition symbol_part (symbol_map : SymbolicTerm.symbol_map_t) (f : factor)
  : list Symbol :=
  match resolve symbol_map (base_and_power f).1 with
  | QiboSymbol s =>
      match symbol_matrix s with
      | PyTensor _ => replicate (Z.to_nat (base_and_power f).2) s
      | _ => []
      end
  | _ => []
  end.

(** The factors that [from_factors] accepts when no [symbol_map] is
    given. *)
Definition recognised (f : factor) : bool :=
  match f with
  | Atom (QiboSymbol s) | Pow (QiboSymbol s) (IntegerExp _) =>
      is_tensor (symbol_matrix s) || is_numeric (symbol_matrix s)
  | Atom ImaginaryUnit => true
  | _ => false
  end.

End factors_reading.

(** More base terms to run the code on: [X] over qubit [(1,)], [X] over
    qubit [(2,)], [X⊗X] over [(0, 1)], and the group of [Z⊗Z] and [X]. *)
Definition term_X1 : @HamiltonianTerm.t gaussian :=
  HamiltonianTerm.Make [1] None None (PyTensor pauli_X).
Definition term_X2 : @HamiltonianTerm.t gaussian :=
  HamiltonianTerm.Make [2] None None (PyTensor pauli_X).
Definition term_XX : @HamiltonianTerm.t gaussian :=
  HamiltonianTerm.Make [0; 1] None None
    (PyTensor (np.kron2 pauli_X pauli_X)).
Definition group_ZZ_X : @TermGroup.t (@HamiltonianTerm.t gaussian) :=
  TermGroup.Make [term_ZZ; term_X] {[0; 1]} None.

(** * Proofs *)

Ltac bind_ok H :=
  repeat lazymatch type of H with
  | (?r ≫= _) = Ok _ =>
      let E := fresh "E" in
      destruct r eqn:E; cbn [mbind result_bind] in H; [|discriminate H]
  end.

Section arith.
Context `{Scalars}.

Lemma tabulate_length n g : length (np.tabulate n g) = n.
Proof. unfold np.tabulate. by rewrite length_fmap, length_seq. Qed.

Lemma tabulate_nth n g f : f < n → nth f (np.tabulate n g) c0 = g f.
Proof.
  intros Hf. unfold np.tabulate.
  apply nth_lookup_Some. rewrite list_lookup_fmap.
  by rewrite (lookup_seq_lt 0 n f Hf).
Qed.

Lemma size_cons d ds : np.size (d :: ds) = d * np.size ds.
Proof. done. Qed.

Lemma size_replicate_2 n : np.size (replicate n 2) = 2 ^ n.
Proof.
  induction n as [|n IH]; [done|].
  cbn [replicate]. rewrite size_cons, IH. by rewrite Nat.pow_succ_r'.
Qed.

Lemma pow2_pos n : 0 < 2 ^ n.
Proof. apply Nat.neq_0_lt_0, Nat.pow_nonzero. lia. Qed.

Lemma unravel_bits n f : np.unravel_index f (replicate n 2) = bits n f.
Proof.
  revert f. induction n as [|n IH]; intros f; [done|].
  cbn [replicate np.unravel_index bits].
  by rewrite size_replicate_2, IH.
Qed.

Lemma bits_length k x : length (bits k x) = k.
Proof. revert x. induction k; intros; simpl; auto. Qed.

Lemma div_mod_split a b r c :
  0 < a → c < b →
  (r * b + c) / (a * b) = r / a ∧ (r * b + c) mod (a * b) = (r mod a) * b + c.
Proof.
  intros Ha Hc.
  pose proof (Nat.div_mod_eq r a) as Hr.
  pose proof (Nat.mod_upper_bound r a ltac:(lia)) as Hs.
  set (q := r / a) in *. set (s := r mod a) in *.
  assert (Hlt : s * b + c < a * b) by nia.
  assert (Heq : r * b + c = a * b * q + (s * b + c)) by nia.
  split; symmetry.
  - by apply (Nat.div_unique _ _ _ (s * b + c)).
  - by apply (Nat.mod_unique _ _ q).
Qed.

Lemma bits_app n k r c :
  r < 2 ^ n → c < 2 ^ k →
  bits (n + k) (r * 2 ^ k + c) = bits n r ++ bits k c.
Proof.
  intros Hr Hc. revert r Hr. induction n as [|n IH]; intros r Hr.
  - simpl in Hr. replace r with 0 by lia. done.
  - cbn [Nat.add bits app].
    rewrite Nat.pow_add_r.
    destruct (div_mod_split (2 ^ n) (2 ^ k) r c (pow2_pos n) Hc) as [-> ->].
    f_equal. apply IH. apply Nat.mod_upper_bound.
    pose proof (pow2_pos n). lia.
Qed.

Lemma bits_bound k x : x < 2 ^ k → Forall (λ b, b < 2) (bits k x).
Proof.
  revert x. induction k as [|k IH]; intros x Hx; cbn [bits]; constructor.
  - apply Nat.Div0.div_lt_upper_bound. rewrite Nat.pow_succ_r' in Hx. lia.
  - apply IH, Nat.mod_upper_bound. pose proof (pow2_pos k). lia.
Qed.

Lemma from_bits_bound bs :
  Forall (λ b, b < 2) bs → from_bits bs < 2 ^ length bs.
Proof.
  induction 1 as [|b bs Hb _ IH]; cbn [from_bits length]; [simpl; lia|].
  rewrite Nat.pow_succ_r'. nia.
Qed.

Lemma from_bits_app xs ys :
  from_bits (xs ++ ys) = from_bits xs * 2 ^ length ys + from_bits ys.
Proof.
  induction xs as [|x xs IH]; cbn [from_bits app]; [lia|].
  rewrite IH, length_app, Nat.pow_add_r. lia.
Qed.

Lemma from_bits_inj xs ys :
  length xs = length ys →
  Forall (λ b, b < 2) xs → Forall (λ b, b < 2) ys →
  from_bits xs = from_bits ys → xs = ys.
Proof.
  intros Hlen Hx. revert ys Hlen.
  induction Hx as [|x xs Hx Hxs IH]; intros [|y ys] Hlen Hy Heq;
    try done.
  inversion Hy as [|?? Hy1 Hy2]; subst.
  cbn [from_bits length] in *.
  injection Hlen as Hlen.
  pose proof (from_bits_bound xs Hxs) as B1.
  pose proof (from_bits_bound ys Hy2) as B2.
  rewrite Hlen in *.
  assert (x = y) by nia. subst y.
  f_equal. apply IH; [done..|lia].
Qed.

Lemma strides_replicate_2 n :
  np.strides (replicate n 2) = (λ j, 2 ^ (n - 1 - j)) <$> seq 0 n.
Proof.
  induction n as [|n IH]; [done|].
  cbn [replicate np.strides seq fmap list_fmap].
  rewrite size_replicate_2, IH. f_equal; [f_equal; lia|].
  rewrite <- seq_shift, <- list_fmap_compose.
  apply list_fmap_ext. intros _ j _. simpl. f_equal. lia.
Qed.

Lemma offset_app i1 i2 s1 s2 :
  length i1 = length s1 →
  np.offset (i1 ++ i2) (s1 ++ s2) = np.offset i1 s1 + np.offset i2 s2.
Proof.
  intros Hlen. unfold np.offset.
  rewrite zip_with_app by done. by rewrite sum_list_with_app.
Qed.

End arith.

Section order.
Context `{Scalars}.
Import HamiltonianTerm.

Lemma index_lookup (l : list nat) i q : NoDup l → l !! i = Some q → index q l = i.
Proof.
  intros Hnd. revert i. induction Hnd as [|x l Hx _ IH]; intros i Hi; [done|].
  destruct i as [|i]; simpl in *.
  - injection Hi as ->. by rewrite bool_decide_eq_true_2.
  - rewrite bool_decide_eq_false_2; [f_equal; auto|].
    intros ->. apply Hx. by eapply list_elem_of_lookup_2.
Qed.

Lemma index_fmap_seq (l : list nat) :
  NoDup l → (λ q, index q l) <$> l = seq 0 (length l).
Proof.
  intros Hnd. apply list_eq. intros i.
  rewrite list_lookup_fmap.
  destruct (l !! i) as [q|] eqn:Hq; simpl.
  - rewrite (index_lookup l i q) by done.
    symmetry. apply lookup_seq. split; [done|]. by eapply lookup_lt_Some.
  - symmetry. apply lookup_ge_None. rewrite length_seq.
    by apply lookup_ge_None.
Qed.

Lemma members_perm (qa qb : list nat) :
  NoDup qa → NoDup qb → qb ⊆ qa → filter (λ q, q ∈ qb) qa ≡ₚ qb.
Proof.
  intros Ha Hb Hsub. apply NoDup_Permutation; [by apply NoDup_filter|done|].
  intros q. rewrite list_elem_of_filter. naive_solver.
Qed.

Lemma filter_lengths (P : nat → Prop) `{∀ x, Decision (P x)} (l : list nat) :
  length (filter P l) + length (filter (λ x, ¬ P x) l) = length l.
Proof.
  rewrite <- length_app. by rewrite filter_app_complement.
Qed.

Lemma merge_order_length qa qb i : length (merge_order qa qb i) = length qa.
Proof.
  revert i. induction qa as [|q qa IH]; intros i; simpl; [done|].
  case_bool_decide; simpl; by rewrite IH.
Qed.

Lemma merge_order_perm qa qb i :
  merge_order qa qb i ≡ₚ
    ((λ q, index q qb) <$> filter (λ q, q ∈ qb) qa)
    ++ seq i (length (filter (λ q, q ∉ qb) qa)).
Proof.
  revert i. induction qa as [|q qa IH]; intros i; simpl; [done|].
  case_bool_decide as Hq.
  - rewrite filter_cons_True by done.
    rewrite filter_cons_False by (by intros ?).
    rewrite fmap_cons. simpl. by rewrite IH.
  - rewrite filter_cons_False by done.
    rewrite filter_cons_True by done.
    simpl. rewrite IH. by rewrite <- Permutation_middle.
Qed.

Lemma merge_order_range qa qb :
  NoDup qa → NoDup qb → qb ⊆ qa →
  merge_order qa qb (length qb) ≡ₚ seq 0 (length qa).
Proof.
  intros Ha Hb Hsub. rewrite merge_order_perm.
  rewrite (members_perm qa qb) by done.
  rewrite index_fmap_seq by done.
  pose proof (filter_lengths (λ q, q ∈ qb) qa) as Hl.
  rewrite (members_perm qa qb) in Hl by done.
  replace (length (filter (λ q, q ∉ qb) qa)) with (length qa - length qb) by lia.
  replace (seq 0 (length qa))
    with (seq 0 (length qb + (length qa - length qb))) by (f_equal; lia).
  by rewrite seq_app.
Qed.

(** the weighted sum of digits along the permuted axes *)
Lemma merge_order_offset (w : nat → nat) qa qb vals i :
  length vals = length qa →
  np.offset vals (w <$> merge_order qa qb i) =
    sum_list ((λ p, p.2 * w (index p.1 qb))
                <$> filter (λ p, p.1 ∈ qb) (zip qa vals))
    + np.offset (snd <$> filter (λ p, p.1 ∉ qb) (zip qa vals))
        (w <$> seq i (length (filter (λ q, q ∉ qb) qa))).
Proof.
  revert vals i. induction qa as [|q qa IH]; intros [|v vals] i Hlen;
    try done.
  injection Hlen as Hlen. cbn [merge_order zip zip_with].
  case_bool_decide as Hq.
  - rewrite filter_cons_True by done.
    rewrite (filter_cons_False (λ p, p.1 ∉ qb)) by (by intros ?).
    rewrite (filter_cons_False (λ q, q ∉ qb)) by (by intros ?).
    unfold np.offset in *. cbn. rewrite IH by done. simpl. lia.
  - rewrite filter_cons_False by done.
    rewrite (filter_cons_True (λ p, p.1 ∉ qb)) by done.
    rewrite (filter_cons_True (λ q, q ∉ qb)) by done.
    unfold np.offset in *. cbn. rewrite IH by done. simpl. lia.
Qed.

Lemma zip_digit qa vals :
  NoDup qa → length vals = length qa →
  zip qa vals = (λ q, (q, digit qa vals q)) <$> qa.
Proof.
  intros Hnd Hlen. apply list_eq. intros i.
  rewrite lookup_zip_with, list_lookup_fmap.
  destruct (qa !! i) as [q|] eqn:Hq; simpl; [|done].
  unfold digit. rewrite (index_lookup qa i q) by done.
  destruct (vals !! i) as [v|] eqn:Hv; simpl.
  - by rewrite (nth_lookup_Some _ _ _ _ Hv).
  - apply lookup_ge_None in Hv. apply lookup_lt_Some in Hq. lia.
Qed.

Lemma filter_members_pair (g : nat → nat) (qb l : list nat) :
  filter (λ p : nat * nat, p.1 ∈ qb) ((λ q, (q, g q)) <$> l)
  = (λ q, (q, g q)) <$> filter (λ q, q ∈ qb) l.
Proof.
  induction l as [|x l IH]; [done|].
  rewrite fmap_cons. destruct (decide (x ∈ qb)).
  - rewrite !filter_cons_True by done. by rewrite fmap_cons, IH.
  - by rewrite !filter_cons_False.
Qed.

Lemma filter_others_pair (g : nat → nat) (qb l : list nat) :
  filter (λ p : nat * nat, p.1 ∉ qb) ((λ q, (q, g q)) <$> l)
  = (λ q, (q, g q)) <$> filter (λ q, q ∉ qb) l.
Proof.
  induction l as [|x l IH]; [done|].
  rewrite fmap_cons. destruct (decide (x ∈ qb)).
  - rewrite !filter_cons_False by (by intros ?). done.
  - rewrite !filter_cons_True by done. by rewrite fmap_cons, IH.
Qed.

Lemma offset_scale xs (w : nat → nat) js c :
  np.offset xs ((λ j, w j * c) <$> js) = np.offset xs (w <$> js) * c.
Proof.
  unfold np.offset. revert js. induction xs as [|x xs IH]; intros [|j js];
    try done.
  cbn. specialize (IH js). simpl in IH. rewrite IH. lia.
Qed.

Lemma offset_from_bits k xs i :
  i + length xs ≤ k →
  np.offset xs ((λ j, 2 ^ (k - 1 - j)) <$> seq i (length xs))
  = from_bits xs * 2 ^ (k - i - length xs).
Proof.
  revert i. induction xs as [|x xs IH]; intros i Hle; [done|].
  cbn [length seq fmap list_fmap from_bits] in *.
  unfold np.offset in *. cbn. rewrite IH by lia.
  replace (k - 1 - i) with (length xs + (k - i - S (length xs))) by lia.
  rewrite Nat.pow_add_r.
  replace (k - S i - length xs) with (k - i - S (length xs)) by lia. lia.
Qed.

Lemma sum_fmap_offset (g w ix : nat → nat) (l : list nat) :
  sum_list ((λ q, g q * w (ix q)) <$> l)
  = np.offset (g <$> l) (w <$> (ix <$> l)).
Proof.
  unfold np.offset. induction l as [|q l IH]; [done|].
  cbn. simpl in IH. by rewrite IH.
Qed.

Lemma sum_by_index (g w : nat → nat) (l : list nat) :
  NoDup l →
  sum_list ((λ q, g q * w (index q l)) <$> l)
  = np.offset (g <$> l) (w <$> seq 0 (length l)).
Proof.
  intros Hnd. rewrite <- (index_fmap_seq l) by done.
  apply (sum_fmap_offset g w (λ q, index q l)).
Qed.

Lemma merge_order_digits qa qb bs :
  NoDup qa → NoDup qb → qb ⊆ qa → length bs = length qa →
  np.offset bs ((λ j, 2 ^ (length qa - 1 - j))
                  <$> merge_order qa qb (length qb))
  = gathered qa qb bs * 2 ^ (length qa - length qb) + remaining qa qb bs.
Proof.
  intros Ha Hb Hsub Hlen.
  pose proof (filter_lengths (λ q, q ∈ qb) qa) as Hl.
  rewrite (members_perm qa qb) in Hl by done.
  rewrite merge_order_offset by done.
  rewrite zip_digit by done.
  rewrite filter_members_pair, filter_others_pair.
  rewrite <- !list_fmap_compose.
  f_equal.
  - rewrite (members_perm qa qb) by done.
    unfold gathered.
    pose proof (offset_from_bits (length qa) (digit qa bs <$> qb) 0) as Ho.
    rewrite length_fmap in Ho. rewrite Nat.sub_0_r in Ho.
    rewrite <- Ho by lia.
    apply (sum_by_index (digit qa bs) (λ j, 2 ^ (length qa - 1 - j)) qb Hb).
  - unfold remaining.
    pose proof (offset_from_bits (length qa)
                  (digit qa bs <$> filter (λ q, q ∉ qb) qa) (length qb)) as Ho.
    rewrite length_fmap in Ho.
    change (snd ∘ (λ q, (q, digit qa bs q))) with (digit qa bs).
    rewrite Ho by lia.
    replace (length qa - length qb - _) with 0 by lia.
    simpl. lia.
Qed.

Lemma digit_bound qa bs q : Forall (λ b, b < 2) bs → digit qa bs q < 2.
Proof.
  intros Hb. unfold digit.
  destruct (nth_lookup_or_length bs (index q qa) 0) as [Hn|Hn].
  - eapply (Forall_lookup_1 _ _ _ _ Hb Hn).
  - rewrite nth_overflow by done. lia.
Qed.

Lemma gathered_bound qa qb bs :
  Forall (λ b, b < 2) bs → gathered qa qb bs < 2 ^ length qb.
Proof.
  intros Hb. unfold gathered.
  rewrite <- (length_fmap (digit qa bs) qb).
  apply from_bits_bound, Forall_fmap, Forall_forall.
  intros q _. by apply digit_bound.
Qed.

Lemma remaining_bound qa qb bs :
  NoDup qa → NoDup qb → qb ⊆ qa →
  Forall (λ b, b < 2) bs →
  remaining qa qb bs < 2 ^ (length qa - length qb).
Proof.
  intros Ha Hnd Hsub Hb. unfold remaining.
  pose proof (filter_lengths (λ q, q ∈ qb) qa) as Hl.
  rewrite (members_perm qa qb) in Hl by done.
  replace (length qa - length qb)
    with (length (digit qa bs <$> filter (λ q, q ∉ qb) qa))
    by (rewrite length_fmap; lia).
  apply from_bits_bound, Forall_fmap, Forall_forall.
  intros q _. by apply digit_bound.
Qed.

Lemma remaining_eq qa qb br bc :
  Forall (λ b, b < 2) br → Forall (λ b, b < 2) bc →
  (remaining qa qb br =? remaining qa qb bc)
  = forallb (λ q, bool_decide (q ∈ qb) || (digit qa br q =? digit qa bc q)) qa.
Proof.
  intros Hr Hc. unfold remaining.
  apply eq_true_iff_eq. rewrite Nat.eqb_eq, forallb_forall.
  split.
  - intros Heq q Hq. apply from_bits_inj in Heq.
    + destruct (decide (q ∈ qb)) as [Hin|Hin].
      * by rewrite bool_decide_eq_true_2.
      * rewrite bool_decide_eq_false_2 by done. simpl.
        apply Nat.eqb_eq.
        assert (Hq' : q ∈ filter (λ q, q ∉ qb) qa).
        { apply list_elem_of_filter. split; [done|]. by apply list_elem_of_In. }
        apply list_elem_of_lookup in Hq' as [i Hi].
        apply (f_equal (λ l, l !! i)) in Heq.
        rewrite !list_lookup_fmap, Hi in Heq. simpl in Heq. congruence.
    + by rewrite !length_fmap.
    + apply Forall_fmap, Forall_forall. intros ? _. by apply digit_bound.
    + apply Forall_fmap, Forall_forall. intros ? _. by apply digit_bound.
  - intros Hall. f_equal. apply list_fmap_ext.
    intros i q Hi.
    assert (Hq : q ∈ filter (λ q, q ∉ qb) qa) by (by eapply list_elem_of_lookup_2).
    apply list_elem_of_filter in Hq as [Hnin Hq].
    specialize (Hall q (proj1 (list_elem_of_In _ _) Hq)).
    rewrite bool_decide_eq_false_2 in Hall by done.
    by apply Nat.eqb_eq.
Qed.

End order.

Section merge_proof.
Context `{Scalars}.
Import HamiltonianTerm.

Lemma div_mod_add x n y : y < n → (x * n + y) / n = x ∧ (x * n + y) mod n = y.
Proof.
  intros Hy. split.
  - rewrite Nat.div_add_l by lia. rewrite Nat.div_small by done. lia.
  - rewrite Nat.add_comm, Nat.Div0.mod_add. by apply Nat.mod_small.
Qed.

Lemma eye_get2 n x y :
  x < n → y < n → np.get2 (np.eye n) x y = if x =? y then c1 else c0.
Proof.
  intros Hx Hy. unfold np.get2, np.eye, np.dim. cbn [shape data nth].
  rewrite tabulate_nth by nia.
  by destruct (div_mod_add x n y Hy) as [-> ->].
Qed.

Lemma is_axes_doubled ord k :
  ord ≡ₚ seq 0 k →
  np.is_axes (ord ++ ((λ x, x + length ord) <$> ord)) (2 * k) = true.
Proof.
  intros Hp. assert (Hlen : length ord = k) by (by rewrite Hp, length_seq).
  unfold np.is_axes. apply andb_true_intro. split.
  - apply Nat.eqb_eq. rewrite length_app, length_fmap. lia.
  - apply forallb_forall. intros j Hj. apply in_seq in Hj.
    apply existsb_exists. exists j. split; [|by apply Nat.eqb_eq].
    apply list_elem_of_In, elem_of_app.
    destruct (decide (j < k)) as [Hlt|Hge].
    + left. rewrite Hp. apply elem_of_seq. lia.
    + right. apply list_elem_of_fmap. exists (j - k). split; [lia|].
      rewrite Hp. apply elem_of_seq. lia.
Qed.

Lemma nth_replicate_2 n j : j < n → nth j (replicate n 2) 0 = 2.
Proof.
  intros Hj. apply nth_lookup_Some. by apply lookup_replicate_2.
Qed.

Lemma nth_strides_2 n j :
  j < n → nth j (np.strides (replicate n 2)) 0 = 2 ^ (n - 1 - j).
Proof.
  intros Hj. rewrite strides_replicate_2. apply nth_lookup_Some.
  rewrite list_lookup_fmap. by rewrite (lookup_seq_lt 0 n j Hj).
Qed.

Lemma fmap_constant (f : nat → nat) c (l : list nat) :
  Forall (λ j, f j = c) l → f <$> l = replicate (length l) c.
Proof. induction 1 as [|j l Hj _ IH]; [done|]. cbn. by rewrite Hj, IH. Qed.

(** Shape and strides of the transposed rank-[2k] tensor. *)
Lemma doubled_shape ord k :
  ord ≡ₚ seq 0 k →
  (λ ax, nth ax (replicate (2 * k) 2) 0)
    <$> (ord ++ ((λ x, x + length ord) <$> ord))
  = replicate (2 * k) 2.
Proof.
  intros Hp. assert (Hlen : length ord = k) by (by rewrite Hp, length_seq).
  rewrite (fmap_constant _ 2).
  - f_equal. rewrite length_app, length_fmap. lia.
  - apply Forall_forall. intros j Hj. apply nth_replicate_2.
    apply elem_of_app in Hj as [Hj|Hj].
    + rewrite Hp in Hj. apply elem_of_seq in Hj. lia.
    + apply list_elem_of_fmap in Hj as (i & -> & Hi).
      rewrite Hp in Hi. apply elem_of_seq in Hi. lia.
Qed.

Lemma doubled_strides ord k :
  ord ≡ₚ seq 0 k →
  (λ ax, nth ax (np.strides (replicate (2 * k) 2)) 0)
    <$> (ord ++ ((λ x, x + length ord) <$> ord))
  = ((λ j, 2 ^ (k - 1 - j) * 2 ^ k) <$> ord)
    ++ ((λ j, 2 ^ (k - 1 - j)) <$> ord).
Proof.
  intros Hp. assert (Hlen : length ord = k) by (by rewrite Hp, length_seq).
  assert (Hb : Forall (λ j, j < k) ord).
  { apply Forall_forall. intros j Hj. rewrite Hp in Hj.
    apply elem_of_seq in Hj. lia. }
  rewrite fmap_app, <- list_fmap_compose. f_equal.
  - apply Forall_fmap_ext_1. eapply Forall_impl; [done|].
    intros j Hj. simpl in *. rewrite nth_strides_2 by lia.
    rewrite <- Nat.pow_add_r. f_equal. lia.
  - apply Forall_fmap_ext_1. eapply Forall_impl; [done|].
    intros j Hj. simpl in *. rewrite nth_strides_2 by lia. f_equal. lia.
Qed.

End merge_proof.

Section merge_main.
Context `{Scalars}.
Import HamiltonianTerm.

Lemma kron_eye_entry (mb : ndarray) m n R Cc :
  shape mb = [2 ^ m; 2 ^ m] →
  R < 2 ^ m * 2 ^ n → Cc < 2 ^ m * 2 ^ n →
  nth (R * (2 ^ m * 2 ^ n) + Cc) (data (np.kron2 mb (np.eye (2 ^ n)))) c0
  = cmul (np.get2 mb (R / 2 ^ n) (Cc / 2 ^ n))
         (if R mod 2 ^ n =? Cc mod 2 ^ n then c1 else c0).
Proof.
  intros Hsh HR HC. unfold np.kron2, np.dim. rewrite Hsh.
  cbn [shape data nth np.eye].
  rewrite tabulate_nth by nia.
  destruct (div_mod_add R (2 ^ m * 2 ^ n) Cc HC) as [-> ->].
  f_equal. pose proof (pow2_pos n).
  apply eye_get2; by apply Nat.mod_upper_bound; lia.
Qed.

Lemma size_pair x : np.size (replicate 2 x) = x * x.
Proof. unfold np.size. cbn [replicate foldr]. lia. Qed.

Lemma reshape_ok (a : ndarray) sh :
  np.size sh = length (data a) → np.reshape a sh = Ok (NdArray sh (data a)).
Proof. intros Hs. unfold np.reshape. by rewrite Hs, Nat.eqb_refl. Qed.

Lemma transpose_ok (a : ndarray) axes :
  np.is_axes axes (length (shape a)) = true →
  np.transpose a axes =
    Ok (NdArray ((λ ax, nth ax (shape a) 0) <$> axes)
          (np.tabulate (np.size ((λ ax, nth ax (shape a) 0) <$> axes))
             (λ f, nth (np.offset
                          (np.unravel_index f
                             ((λ ax, nth ax (shape a) 0) <$> axes))
                          ((λ ax, nth ax (np.strides (shape a)) 0) <$> axes))
                       (data a) c0))).
Proof. intros Hs. unfold np.transpose. by rewrite Hs. Qed.

Lemma embedding_steps (qa qb : list nat) (mb : ndarray) :
  NoDup qa → NoDup qb → qb ⊆ qa →
  shape mb = [2 ^ length qb; 2 ^ length qb] →
  let k := length qa in
  let order := merge_order qa qb (length qb) in
  ∃ m3,
    (matrix0 ← np.kron (PyTensor mb)
                 (PyTensor (np.eye (2 ^ (k - length qb))));
     matrix1 ← np.reshape_obj matrix0 (replicate (2 * k) 2);
     matrix2 ← np.transpose matrix1
                 (order ++ ((λ x, x + length order) <$> order));
     np.reshape matrix2 (replicate 2 (2 ^ k))) = Ok m3
    ∧ shape m3 = [2 ^ k; 2 ^ k]
    ∧ length (data m3) = 2 ^ k * 2 ^ k
    ∧ ∀ r c, r < 2 ^ k → c < 2 ^ k →
        np.get2 m3 r c = embed qa qb mb r c.
Proof.
  intros Ha Hb Hsub Hsh k order.
  pose proof (merge_order_range qa qb Ha Hb Hsub) as Hp. fold order k in Hp.
  assert (Hlen : length order = k) by (by rewrite Hp, length_seq).
  assert (Hmk : length qb ≤ k).
  { pose proof (filter_lengths (λ q, q ∈ qb) qa) as Hl.
    rewrite (members_perm qa qb) in Hl by done. unfold k. lia. }
  set (m := length qb) in *. set (n := k - m).
  assert (Hpow : 2 ^ m * 2 ^ n = 2 ^ k).
  { rewrite <- Nat.pow_add_r. f_equal. lia. }
  assert (Hpow2 : 2 ^ (2 * k) = 2 ^ k * 2 ^ k).
  { rewrite <- Nat.pow_add_r. f_equal. lia. }
  (* kron *)
  cbn [np.kron].
  rewrite bool_decide_eq_true_2 by (by rewrite Hsh).
  cbn [mbind result_bind np.reshape_obj np.asarray].
  (* first reshape *)
  assert (Hd0 : length (data (np.kron2 mb (np.eye (2 ^ n)))) = 2 ^ k * 2 ^ k).
  { unfold np.kron2, np.dim. rewrite Hsh. cbn [shape data nth np.eye].
    rewrite tabulate_length. by rewrite Hpow. }
  rewrite reshape_ok by (by rewrite size_replicate_2, Hd0, Hpow2).
  cbn [mbind result_bind].
  (* transpose *)
  rewrite transpose_ok; cbn [shape data];
    [|rewrite length_replicate; by apply is_axes_doubled].
  rewrite doubled_shape, doubled_strides by done.
  rewrite size_replicate_2. cbn [mbind result_bind].
  rewrite reshape_ok; cbn [shape data];
    [|by rewrite tabulate_length, size_pair, Hpow2].
  eexists. split; [done|]. cbn [shape data].
  split; [done|]. split; [by rewrite tabulate_length|].
  intros r c Hr Hc. unfold np.get2, np.dim. cbn [shape data replicate nth].
  rewrite tabulate_nth by nia.
  rewrite unravel_bits.
  replace (2 * k) with (k + k) by lia.
  rewrite bits_app by done.
  rewrite offset_app by (by rewrite bits_length, length_fmap).
  rewrite offset_scale.
  pose proof (bits_bound k r Hr) as Hbr.
  pose proof (bits_bound k c Hc) as Hbc.
  pose proof (bits_length k r) as Hlr.
  pose proof (bits_length k c) as Hlc.
  pose proof (gathered_bound qa qb _ Hbr) as Hgr.
  pose proof (gathered_bound qa qb _ Hbc) as Hgc.
  pose proof (remaining_bound qa qb _ Ha Hb Hsub Hbr) as Her.
  pose proof (remaining_bound qa qb _ Ha Hb Hsub Hbc) as Hec.
  subst order n m k. unfold embed.
  rewrite <- (remaining_eq qa qb _ _ Hbr Hbc).
  rewrite !merge_order_digits by done.
  set (gr := gathered _ _ (bits _ r)) in *.
  set (gc := gathered _ _ (bits _ c)) in *.
  set (er := remaining _ _ (bits _ r)) in *.
  set (ec := remaining _ _ (bits _ c)) in *.
  rewrite <- Hpow.
  rewrite kron_eye_entry by (done || nia).
  destruct (div_mod_add gr _ er Her) as [-> ->].
  destruct (div_mod_add gc _ ec Hec) as [-> ->].
  destruct (er =? ec).
  - by rewrite cmul_1_r.
  - by rewrite cmul_0_r.
Qed.
End merge_main.

Section merge_thm.
Context `{Scalars}.

Lemma get2_add (a b : ndarray) n r c :
  shape a = [n; n] → shape b = [n; n] →
  length (data a) = n * n → length (data b) = n * n →
  r < n → c < n →
  np.get2 (NdArray [n; n] (zip_with cadd (data a) (data b))) r c
  = cadd (np.get2 a r c) (np.get2 b r c).
Proof.
  intros Hsa Hsb Hla Hlb Hr Hc. unfold np.get2, np.dim.
  rewrite Hsa, Hsb. cbn [shape data nth].
  assert (Hi : r * n + c < n * n) by nia.
  destruct (lookup_lt_is_Some_2 (data a) (r * n + c)) as [x Hx]; [lia|].
  destruct (lookup_lt_is_Some_2 (data b) (r * n + c)) as [y Hy]; [lia|].
  rewrite (nth_lookup_Some _ _ _ _ Hx), (nth_lookup_Some _ _ _ _ Hy).
  apply nth_lookup_Some. rewrite lookup_zip_with, Hx, Hy. done.
Qed.

(** X21: for base terms [A] and [B] with distinct qubits each, the qubits
    of [B] among those of [A], and operators of the matching sizes,
    [A.merge(B)] returns a new base term over the qubits of [A] whose
    matrix is, entry by entry, [A.matrix] plus the operator of [B]
    tensored with the identity on the other qubits of [A], in the axis
    order of [A]. *)
Theorem merge_embeds (A B : HamiltonianTerm.t) (ma mb : ndarray) :
  let qa := HamiltonianTerm.target_qubits A in
  let qb := HamiltonianTerm.target_qubits B in
  NoDup qa → NoDup qb → qb ⊆ qa →
  HamiltonianTerm.matrix A = PyTensor ma → is_operator (length qa) ma →
  HamiltonianTerm.matrix B = PyTensor mb → is_operator (length qb) mb →
  ∃ m,
    HamiltonianTerm.merge A B
      = Ok (HamiltonianTerm.Make qa None None (PyTensor m))
    ∧ is_operator (length qa) m
    ∧ ∀ r c, r < 2 ^ length qa → c < 2 ^ length qa →
        np.get2 m r c = cadd (np.get2 ma r c) (embed qa qb mb r c).
Proof.
  intros qa qb Ha Hb Hsub HA [Hsa Hla] HB [Hsb Hlb].
  destruct (embedding_steps qa qb mb Ha Hb Hsub Hsb)
    as (m3 & Hsteps & Hs3 & Hl3 & Hentry).
  assert (Hmk : length qb ≤ length qa).
  { pose proof (filter_lengths (λ q, q ∈ qb) qa) as Hl.
    rewrite (members_perm qa qb) in Hl by done. lia. }
  unfold HamiltonianTerm.merge, HamiltonianTerm.__len__.
  fold qa qb.
  destruct (length qa <? length qb) eqn:Hlt;
    [apply Nat.ltb_lt in Hlt; lia|].
  rewrite HA, HB.
  repeat lazymatch type of Hsteps with
  | (?r ≫= _) = Ok _ =>
      destruct r; cbn [mbind result_bind] in Hsteps |- *;
      [|discriminate Hsteps]
  end.
  rewrite Hsteps. cbn [mbind result_bind np.add]. unfold np.add_arrays.
  rewrite Hsa, Hs3, bool_decide_eq_true_2 by done.
  cbn [mbind result_bind]. unfold HamiltonianTerm.__init__. cbn.
  eexists. split; [done|]. split; [split; [done|]|].
  - cbn [data]. rewrite length_zip_with. lia.
  - intros r c Hr Hc. rewrite <- Hentry by done.
    by apply get2_add.
Qed.
End merge_thm.

Section symbolic_merge.
Context `{Scalars}.

(** The constructor of [SymbolicTerm] refuses a [2^k × 2^k] array over
    [k > 0] qubits. *)
Lemma init_positional_square (m : ndarray) (q : list nat) :
  q ≠ [] → shape m = [2 ^ length q; 2 ^ length q] →
  SymbolicTerm.__init__positional (PyTensor m) q = Raise TypeError.
Proof.
  intros Hq Hsh. unfold SymbolicTerm.__init__positional.
  destruct (2 <? length q); [done|].
  cbn [SymbolicTerm.complex_of]. rewrite Hsh.
  assert (Hk : 0 < length q) by (destruct q; [done|cbn; lia]).
  assert (H2 : 2 ≤ 2 ^ length q).
  { destruct (length q) as [|k]; [lia|].
    rewrite Nat.pow_succ_r'. pose proof (pow2_pos k). lia. }
  destruct (np.size _ =? 1) eqn:Hs; [|done].
  apply Nat.eqb_eq in Hs. unfold np.size in Hs. cbn [foldr] in Hs. nia.
Qed.

Lemma add_shape (x : pyobj) (b : ndarray) (sum : pyobj) :
  np.add x (PyTensor b) = Ok sum →
  ∃ s, sum = PyTensor s ∧ shape s = shape b.
Proof.
  destruct x as [|c|a|]; cbn [np.add]; try done.
  - intros [= <-]. by eexists.
  - unfold np.add_arrays. destruct (bool_decide _) eqn:Hb; [|done].
    apply bool_decide_eq_true_1 in Hb. cbn [mbind result_bind].
    intros [= <-]. by eexists.
Qed.

Lemma reshape_shape (a r : ndarray) sh :
  np.reshape a sh = Ok r → shape r = sh.
Proof.
  unfold np.reshape. destruct (_ =? _); [|done]. by intros [= <-].
Qed.

(** Whatever the argument, a call that reaches the constructor is
    refused there. *)
Lemma symbolic_merge_never_returns (A : SymbolicTerm.t)
    (B : SymbolicTerm.operand) (r : SymbolicTerm.t) :
  SymbolicTerm.target_qubits A ≠ [] → SymbolicTerm.merge A B ≠ Ok r.
Proof.
  intros Hq Hm. unfold SymbolicTerm.merge in Hm.
  destruct (SymbolicTerm.operand_matrix B) as [tm|]; [|done].
  cbn [mbind result_bind] in Hm.
  destruct (_ <? _); [done|].
  bind_ok Hm.
  apply reshape_shape in E2.
  apply add_shape in E4 as (s & -> & Hs).
  rewrite init_positional_square in Hm; [done|done|].
  by rewrite Hs, E2.
Qed.

(** C1: [merge], which [SymbolicTerm] inherits, does not return a term
    when the receiver is symbolic.  For a symbolic term [A] over at least
    one qubit and a term [B] of either class, with distinct qubits each,
    the qubits of [B] among those of [A], and operators of the matching
    sizes, [A.merge(B)] computes [A.matrix] plus the embedding of
    [B.matrix], entry by entry, and hands that array to the constructor
    of [SymbolicTerm] in the place of [coefficient]: the call raises
    [TypeError], where the constructor of the base class accepts the
    same array.  No argument at all makes [merge] return for such a
    receiver. *)
Theorem symbolic_receiver_merge_raises (A : SymbolicTerm.t)
    (B : SymbolicTerm.operand) (ma mb : ndarray) :
  let qa := SymbolicTerm.target_qubits A in
  let qb := SymbolicTerm.operand_qubits B in
  qa ≠ [] → NoDup qa → NoDup qb → qb ⊆ qa →
  (SymbolicTerm.matrix A).1 = Ok (PyTensor ma) →
  is_operator (length qa) ma →
  SymbolicTerm.operand_matrix B = Ok (PyTensor mb) →
  is_operator (length qb) mb →
  SymbolicTerm.merge A B = Raise TypeError
  ∧ (∃ m,
       (∀ r c, r < 2 ^ length qa → c < 2 ^ length qa →
          np.get2 m r c = cadd (np.get2 ma r c) (embed qa qb mb r c))
       ∧ SymbolicTerm.merge A B
         = SymbolicTerm.__init__positional (PyTensor m) qa
       ∧ HamiltonianTerm.__init__ (PyTensor m) qa
         = Ok (HamiltonianTerm.Make qa None None (PyTensor m)))
  ∧ ∀ B' r, SymbolicTerm.merge A B' ≠ Ok r.
Proof.
  intros qa qb Hne Ha Hb Hsub HA [Hsa Hla] HB [Hsb Hlb].
  destruct (embedding_steps qa qb mb Ha Hb Hsub Hsb)
    as (m3 & Hsteps & Hs3 & Hl3 & Hentry).
  assert (Hmk : length qb ≤ length qa).
  { pose proof (filter_lengths (λ q, q ∈ qb) qa) as Hl.
    rewrite (members_perm qa qb) in Hl by done. lia. }
  assert (Hmerge : SymbolicTerm.merge A B
            = SymbolicTerm.__init__positional
                (PyTensor (NdArray (shape ma)
                             (zip_with cadd (data ma) (data m3)))) qa).
  { unfold SymbolicTerm.merge. fold qa qb. rewrite HB.
    cbn [mbind result_bind].
    destruct (length qa <? length qb) eqn:Hlt;
      [apply Nat.ltb_lt in Hlt; lia|].
    repeat lazymatch type of Hsteps with
    | (?r ≫= _) = Ok _ =>
        destruct r; cbn [mbind result_bind] in Hsteps |- *;
        [|discriminate Hsteps]
    end.
    rewrite Hsteps, HA. cbn [mbind result_bind np.add].
    unfold np.add_arrays.
    by rewrite Hsa, Hs3, bool_decide_eq_true_2 by done. }
  split_and!.
  - rewrite Hmerge. by apply init_positional_square.
  - eexists. split_and!; [|exact Hmerge|done].
    intros r c Hr Hc. rewrite <- Hentry by done. rewrite Hsa.
    by apply get2_add.
  - intros B' r. by apply symbolic_merge_never_returns.
Qed.

End symbolic_merge.

Section grouping.
Import TermGroup.
Context {T : Type} `{!Qubits T}.
Implicit Types (terms : list T) (groups : list (@TermGroup.t T)).

(** *** The buckets *)

Lemma buckets_snoc terms term :
  buckets (terms ++ [term]) = bucket (buckets terms) term.
Proof. unfold buckets. by rewrite foldl_snoc. Qed.

Lemma buckets_lookup terms o :
  buckets terms !! o =
    if decide (of_arity o terms = []) then None
    else Some (of_arity o terms).
Proof.
  induction terms as [|term terms IH] using rev_ind; [done|].
  rewrite buckets_snoc. unfold bucket, of_arity in *.
  rewrite filter_app.
  destruct (decide (len term = o)) as [<-|Hne].
  - rewrite filter_cons_True, filter_nil by done.
    rewrite IH. case_decide as Hnil.
    + rewrite Hnil, lookup_insert_eq. by case_decide.
    + rewrite lookup_insert_eq. case_decide as Hx; [|done].
      by apply app_eq_nil in Hx as [_ ?].
  - rewrite filter_cons_False, filter_nil, app_nil_r by done.
    destruct (buckets terms !! len term); by rewrite lookup_insert_ne.
Qed.

Lemma arities_elem terms o :
  o ∈ arities (buckets terms) ↔ ∃ term, term ∈ terms ∧ len term = o.
Proof.
  unfold arities. rewrite elem_of_reverse, merge_sort_Permutation.
  rewrite elem_of_elements, elem_of_dom, buckets_lookup.
  unfold of_arity. case_decide as Hnil; split.
  - by intros [? ?].
  - intros (term & Hin & Hlen).
    assert (Hf : term ∈ filter (λ term, len term = o) terms)
      by (by apply list_elem_of_filter).
    rewrite Hnil in Hf. by apply not_elem_of_nil in Hf.
  - intros _. destruct (filter _ terms) as [|term l] eqn:Hf; [done|].
    assert (Hin : term ∈ filter (λ term, len term = o) terms)
      by (rewrite Hf; left).
    apply list_elem_of_filter in Hin as [? ?]. eauto.
  - eauto.
Qed.

Lemma arities_sorted (orders : gmap nat (list T)) :
  StronglySorted gt (arities orders).
Proof.
  unfold arities.
  assert (Hs : StronglySorted lt (merge_sort le (elements (dom orders)))).
  { assert (Hnd : NoDup (merge_sort le (elements (dom orders)))).
    { rewrite merge_sort_Permutation. apply NoDup_elements. }
    pose proof (StronglySorted_merge_sort le (elements (dom orders))) as Hle.
    induction Hle as [|x l Hl IH Hx]; [constructor|].
    apply NoDup_cons in Hnd as [Hx' Hnd].
    constructor; [by apply IH|].
    apply Forall_forall. intros y Hy.
    pose proof (proj1 (Forall_forall _ _) Hx y Hy).
    assert (x ≠ y) by (by intros ->). lia. }
  revert Hs. generalize (merge_sort le (elements (dom orders))).
  intros l Hs. induction Hs as [|x l Hl IH Hx]; [constructor|].
  rewrite reverse_cons. apply StronglySorted_app; split_and!.
  - intros y z Hy Hz. rewrite elem_of_reverse in Hy.
    apply list_elem_of_singleton in Hz as ->.
    pose proof (proj1 (Forall_forall _ _) Hx y Hy). lia.
  - done.
  - repeat constructor.
Qed.

Lemma children_buckets terms :
  children (buckets terms)
  = arities (buckets terms) ≫= λ o, of_arity o terms.
Proof.
  unfold children. apply list_bind_ext; [|done].
  intros o. rewrite buckets_lookup. by case_decide as Hnil; [rewrite Hnil|].
Qed.

Lemma filter_disjoint_app (P Q : T → Prop)
    `{∀ x, Decision (P x)} `{∀ x, Decision (Q x)} terms :
  (∀ x, P x → Q x → False) →
  filter P terms ++ filter Q terms ≡ₚ filter (λ x, P x ∨ Q x) terms.
Proof.
  intros Hd. induction terms as [|x terms IH]; [done|].
  destruct (decide (P x)) as [HP|HP]; destruct (decide (Q x)) as [HQ|HQ].
  - by destruct (Hd x).
  - rewrite (filter_cons_True P), (filter_cons_False Q),
      (filter_cons_True (λ x, P x ∨ Q x)) by tauto.
    simpl. by rewrite IH.
  - rewrite (filter_cons_False P), (filter_cons_True Q),
      (filter_cons_True (λ x, P x ∨ Q x)) by tauto.
    rewrite <- Permutation_middle. by rewrite IH.
  - rewrite (filter_cons_False P), (filter_cons_False Q),
      (filter_cons_False (λ x, P x ∨ Q x)) by tauto.
    done.
Qed.

Lemma bind_of_arity (ks : list nat) terms :
  NoDup ks →
  ks ≫= (λ o, of_arity o terms) ≡ₚ filter (λ term, len term ∈ ks) terms.
Proof.
  induction 1 as [|o ks Ho _ IH]; simpl.
  - symmetry. apply Permutation_nil_r.
    induction terms as [|x terms IHt]; [done|].
    rewrite filter_cons_False; [done|]. apply not_elem_of_nil.
  - rewrite IH. unfold of_arity. rewrite filter_disjoint_app.
    + apply reflexive_eq, list_filter_iff. intros x.
      rewrite elem_of_cons. naive_solver.
    + intros x <- Hin. done.
Qed.

Lemma filter_all (P : T → Prop) `{∀ x, Decision (P x)} terms :
  (∀ x, x ∈ terms → P x) → filter P terms = terms.
Proof.
  induction terms as [|x terms IH]; intros HP; [done|].
  rewrite filter_cons_True by (apply HP; left).
  f_equal. apply IH. intros y Hy. apply HP. by right.
Qed.

Lemma arities_NoDup (orders : gmap nat (list T)) : NoDup (arities orders).
Proof.
  unfold arities. rewrite reverse_Permutation, merge_sort_Permutation.
  apply NoDup_elements.
Qed.

Lemma children_perm terms : children (buckets terms) ≡ₚ terms.
Proof.
  rewrite children_buckets, bind_of_arity by apply arities_NoDup.
  apply reflexive_eq, filter_all. intros x Hx.
  apply arities_elem. eauto.
Qed.

Lemma of_arity_sorted o terms :
  StronglySorted (λ a b, len b ≤ len a) (of_arity o terms).
Proof.
  unfold of_arity. induction terms as [|x terms IHt]; [constructor|].
  destruct (decide (len x = o)).
  - rewrite filter_cons_True by done. constructor; [done|].
    apply Forall_forall. intros y Hy.
    apply list_elem_of_filter in Hy as [Hy _]. lia.
  - by rewrite filter_cons_False.
Qed.

Lemma children_sorted terms :
  StronglySorted (λ a b, len b ≤ len a) (children (buckets terms)).
Proof.
  rewrite children_buckets.
  pose proof (arities_sorted (buckets terms)) as Hs.
  induction Hs as [|o ks Hks IH Ho]; simpl; [constructor|].
  apply StronglySorted_app; split_and!.
  - intros a b Ha Hb.
    apply list_elem_of_filter in Ha as [Ha _].
    apply list_elem_of_bind in Hb as (o' & Hb & Ho').
    apply list_elem_of_filter in Hb as [Hb _].
    pose proof (proj1 (Forall_forall _ _) Ho o' Ho'). lia.
  - apply of_arity_sorted.
  - done.
Qed.

(** *** Placing one child *)

Lemma place_cases groups child :
  (∃ i group,
      list_find (λ group, can_append group child = true) groups
        = Some (i, group)
      ∧ groups !! i = Some group
      ∧ can_append group child = true
      ∧ place groups child = <[i := append group child]> groups)
  ∨ (list_find (λ group, can_append group child = true) groups = None
     ∧ Forall (λ group, can_append group child = false) groups
     ∧ place groups child = groups ++ [__init__ child]).
Proof.
  unfold place.
  destruct (list_find _ groups) as [[i group]|] eqn:Hf.
  - left. exists i, group.
    apply list_find_Some in Hf as (Hi & Hc & _). done.
  - right. apply list_find_None in Hf. split_and!; [done| |done].
    eapply Forall_impl; [done|]. intros g Hg. simpl in Hg.
    by destruct (can_append g child).
Qed.

Lemma place_members groups child :
  mjoin (members <$> place groups child)
  ≡ₚ mjoin (members <$> groups) ++ [child].
Proof.
  destruct (place_cases groups child)
    as [(i & group & _ & Hi & _ & ->)|(_ & _ & ->)].
  - rewrite insert_take_drop by (by eapply lookup_lt_Some).
    rewrite <- (take_drop_middle groups i group Hi) at 3.
    rewrite !fmap_app, !fmap_cons, !join_app. simpl.
    rewrite <- !app_assoc. do 2 f_equiv.
    by rewrite Permutation_app_comm.
  - rewrite fmap_app, join_app. by simpl.
Qed.

Lemma foldl_place_members groups cs :
  mjoin (members <$> foldl place groups cs)
  ≡ₚ mjoin (members <$> groups) ++ cs.
Proof.
  revert groups. induction cs as [|c cs IH]; intros groups; simpl.
  - by rewrite app_nil_r.
  - rewrite IH, place_members. by rewrite <- app_assoc.
Qed.

Lemma from_terms_members terms :
  mjoin (members <$> from_terms terms) ≡ₚ terms.
Proof.
  unfold from_terms. rewrite foldl_place_members. simpl.
  apply children_perm.
Qed.

(** *** The invariant of a group *)

Lemma seeded_init child : seeded (__init__ child).
Proof. exists child, []. by split_and!. Qed.

Lemma seeded_append group child :
  seeded group → can_append group child = true →
  seeded (append group child).
Proof.
  intros (seed & rest & Hm & Hq & Hrest) Hc.
  apply bool_decide_eq_true_1 in Hc.
  exists seed, (rest ++ [child]). simpl. rewrite Hm. split_and!.
  - done.
  - rewrite <- Hq. set_solver.
  - apply Forall_app. split; [done|]. constructor; [|done]. by rewrite <- Hq.
Qed.

Lemma seeded_place groups child :
  Forall seeded groups → Forall seeded (place groups child).
Proof.
  intros Hall.
  destruct (place_cases groups child)
    as [(i & group & _ & Hi & Hc & ->)|(_ & _ & ->)].
  - apply Forall_insert; [done|].
    apply seeded_append; [|done].
    by eapply Forall_lookup_1.
  - apply Forall_app. split; [done|].
    constructor; [apply seeded_init|done].
Qed.

Lemma seeded_from_terms terms : Forall seeded (from_terms terms).
Proof.
  unfold from_terms. generalize (children (buckets terms)).
  assert (Hnil : Forall seeded []) by constructor.
  revert Hnil. generalize (@nil (@TermGroup.t T)).
  intros groups Hg cs. revert groups Hg.
  induction cs as [|c cs IH]; intros groups Hg; simpl; [done|].
  by apply IH, seeded_place.
Qed.

Lemma placed_place groups child : placed child groups (place groups child).
Proof.
  destruct (place_cases groups child)
    as [(i & group & _ & Hi & Hc & ->)|(_ & _ & ->)].
  - apply placed_append; [done|]. by apply bool_decide_eq_true_1 in Hc.
  - apply placed_seed.
Qed.

Lemma grouping_foldl cs : grouping cs (foldl place [] cs).
Proof.
  induction cs as [|c cs IH] using rev_ind; [constructor|].
  rewrite foldl_snoc. econstructor; [done|]. apply placed_place.
Qed.

Lemma seeded_contains group term :
  seeded group → term ∈ members group →
  support term ⊆ target_qubits group.
Proof.
  intros (seed & rest & Hm & Hq & Hrest) Hin. rewrite Hm in Hin.
  rewrite Hq. apply elem_of_cons in Hin as [->|Hin]; [done|].
  by apply (proj1 (Forall_forall _ _) Hrest).
Qed.

Lemma foldl_place_last groups cs :
  foldl place groups cs
  = match last (moments groups cs) with
    | Some (gs, child) => place gs child
    | None => groups
    end.
Proof.
  revert groups. induction cs as [|c cs IH]; intros groups; [done|].
  cbn [foldl moments]. rewrite IH.
  destruct cs as [|c' cs]; [done|].
  rewrite last_cons. cbn [moments].
  destruct (last (_ :: _)) as [[gs child]|] eqn:Hl; [done|].
  by apply last_None in Hl.
Qed.

Lemma moments_place groups cs gs child :
  (gs, child) ∈ moments groups cs →
  match list_find (λ group, can_append group child = true) gs with
  | Some (i, group) =>
      support child ⊆ target_qubits group
      ∧ place gs child = <[i := append group child]> gs
  | None => place gs child = gs ++ [__init__ child]
  end.
Proof.
  revert groups. induction cs as [|c cs IH]; intros groups Hin; simpl in Hin.
  - by apply not_elem_of_nil in Hin.
  - apply elem_of_cons in Hin as [[= -> ->]|Hin]; [|by eapply IH].
    destruct (place_cases groups c)
      as [(i & group & -> & Hi & Hc & ->)|(-> & _ & ->)]; [|done].
    split; [|done]. by apply bool_decide_eq_true_1 in Hc.
Qed.

Lemma moments_lookup groups cs i gs child :
  moments groups cs !! i = Some (gs, child) →
  cs !! i = Some child ∧ gs = foldl place groups (take i cs).
Proof.
  revert groups i. induction cs as [|c cs IH]; intros groups i Hi;
    [done|].
  destruct i as [|i]; simpl in Hi.
  - by injection Hi as <- <-.
  - by apply IH in Hi.
Qed.

End grouping.

Section base_terms.
Import TermGroup.
Context `{Scalars}.

Lemma init_qubits m q (term : HamiltonianTerm.t) :
  HamiltonianTerm.__init__ m q = Ok term →
  HamiltonianTerm.target_qubits term = q.
Proof.
  unfold HamiltonianTerm.__init__. destruct (negb _); [done|].
  by intros [= <-].
Qed.

Lemma mul_qubits (term term' : HamiltonianTerm.t) x :
  HamiltonianTerm.__mul__ term x = Ok term' →
  HamiltonianTerm.target_qubits term' = HamiltonianTerm.target_qubits term.
Proof.
  unfold HamiltonianTerm.__mul__. intros Hm. bind_ok Hm.
  by apply init_qubits in Hm.
Qed.

Lemma merge_qubits (a b c : HamiltonianTerm.t) :
  HamiltonianTerm.merge a b = Ok c →
  HamiltonianTerm.target_qubits c = HamiltonianTerm.target_qubits a.
Proof.
  unfold HamiltonianTerm.merge. destruct (_ <? _); [done|].
  intros Hm. bind_ok Hm. by apply init_qubits in Hm.
Qed.

Lemma support_base (term : HamiltonianTerm.t) :
  support term = list_to_set (HamiltonianTerm.target_qubits term).
Proof. done. Qed.

Lemma rescaled_support coefficients (term term' : HamiltonianTerm.t) :
  rescaled coefficients term = Ok term' → support term' = support term.
Proof.
  unfold rescaled. destruct (coefficients !! _).
  - intros Hm. rewrite !support_base.
    by rewrite (mul_qubits term term' c Hm).
  - by intros [= <-].
Qed.

Lemma merge_calls_subset coefficients (merged : HamiltonianTerm.t) rest :
  Forall (λ term, support term ⊆ support merged) rest →
  Forall (λ call, support call.2 ⊆ support call.1)
    (merge_calls coefficients merged rest).
Proof.
  revert merged. induction rest as [|term rest IH]; intros merged Hall;
    cbn [merge_calls]; [constructor|].
  apply Forall_cons in Hall as [Hterm Hrest].
  destruct (rescaled coefficients term) as [term'|] eqn:Hr; [|constructor].
  apply rescaled_support in Hr.
  constructor; [cbn [fst snd]; by rewrite Hr|].
  destruct (merge_with merged term') as [merged'|] eqn:Hm; [|constructor].
  apply IH. apply merge_qubits in Hm.
  rewrite (support_base merged'), Hm, <- (support_base merged). done.
Qed.

(** C7: every group that [from_terms] returns has a first member whose
    qubit support is the group's [target_qubits], all later members lie
    inside that support, and every call [merged.merge(term)] that
    [to_term] makes on the group has the qubits of its argument among
    those of its receiver. *)
Theorem groups_are_seeded (terms : list HamiltonianTerm.t)
    (group : @TermGroup.t HamiltonianTerm.t)
    (coefficients : gmap (option nat) cplx) :
  group ∈ from_terms terms →
  (∃ seed rest,
      members group = seed :: rest
      ∧ target_qubits group = support seed
      ∧ Forall (λ term, support term ⊆ support seed) rest)
  ∧ Forall (λ call, support call.2 ⊆ support call.1)
      (to_term_calls group coefficients).
Proof.
  intros Hin.
  pose proof (seeded_from_terms terms) as Hall.
  pose proof (proj1 (Forall_forall _ _) Hall group Hin) as Hs.
  split; [exact Hs|].
  destruct Hs as (seed & rest & Hm & _ & Hrest).
  unfold to_term_calls. rewrite Hm.
  destruct (rescaled coefficients seed) as [merged|] eqn:Hr; [|constructor].
  apply rescaled_support in Hr.
  apply merge_calls_subset. by rewrite Hr.
Qed.
End base_terms.

Section claims.
Import TermGroup.
Context {T : Type} `{!Qubits T}.

Lemma place_nil (child : T) : place [] child = [__init__ child].
Proof. done. Qed.

Lemma place_head (group : @TermGroup.t T) groups child :
  can_append group child = true →
  place (group :: groups) child = append group child :: groups.
Proof.
  intros Hc. unfold place. cbn [list_find]. by rewrite decide_True.
Qed.

(** C2: the groups returned by [from_terms] hold every input term exactly
    once (their members, put end to end, are a permutation of the
    input).  The returned list is reached from no group at all by
    placing the terms, in some order, one after the other, each either
    appended to a group whose [target_qubits] already contain its
    support or seeding a new singleton group at the end ([grouping]); in
    the returned groups no group is empty and every member's support
    lies in the [target_qubits] of its group.  The returned list is the
    state after the last moment of the second loop; the moments are the
    states of that loop, child by child, and at each moment the child is
    appended to the first group that passes [can_append], whose
    [target_qubits] then already contain the child's support, or seeds a
    new singleton group at the end. *)
Theorem from_terms_partition (terms : list T) :
  mjoin (members <$> from_terms terms) ≡ₚ terms
  ∧ (∃ cs, cs ≡ₚ terms ∧ grouping cs (from_terms terms))
  ∧ (∀ group, group ∈ from_terms terms →
       members group ≠ []
       ∧ ∀ term, term ∈ members group →
           support term ⊆ target_qubits group)
  ∧ from_terms terms
    = match last (from_terms_moments terms) with
      | Some (groups, child) => place groups child
      | None => []
      end
  ∧ (∀ i groups child,
       from_terms_moments terms !! i = Some (groups, child) →
       children (buckets terms) !! i = Some child
       ∧ groups = foldl place [] (take i (children (buckets terms))))
  ∧ ∀ groups child,
      (groups, child) ∈ from_terms_moments terms →
      match list_find (λ group, can_append group child = true) groups with
      | Some (i, group) =>
          support child ⊆ target_qubits group
          ∧ place groups child = <[i := append group child]> groups
      | None => place groups child = groups ++ [__init__ child]
      end.
Proof.
  split_and!; [apply from_terms_members| | | | |].
  - exists (children (buckets terms)). split; [apply children_perm|].
    apply grouping_foldl.
  - intros group Hin.
    pose proof (proj1 (Forall_forall _ _) (seeded_from_terms terms)
                  group Hin) as Hs.
    split.
    + destruct Hs as (seed & rest & -> & _). done.
    + intros term Hterm. by apply seeded_contains.
  - apply foldl_place_last.
  - intros i groups child Hi. by apply moments_lookup.
  - intros groups child Hin. by eapply moments_place.
Qed.

(** C6: [from_terms] visits the arities present in the input from the
    largest to the smallest, whatever the order of the input, and places
    the terms of each arity in their original order; a one-qubit term
    over [(0,)] given before a two-qubit term over [(0, 1)] ends in the
    group seeded by the two-qubit term: one group of two members. *)
Theorem from_terms_largest_first :
  (∀ terms : list T,
     StronglySorted gt (arities (buckets terms))
     ∧ (∀ o, o ∈ arities (buckets terms)
             ↔ ∃ term, term ∈ terms ∧ len term = o)
     ∧ from_terms terms
       = foldl place []
           (arities (buckets terms) ≫= λ o,
              filter (λ term, len term = o) terms))
  ∧ (∀ small large : T,
       qubits small = [0] → qubits large = [0; 1] →
       from_terms [small; large] = [Make [large; small] {[0; 1]} None]).
Proof.
  split.
  - intros terms. split_and!.
    + apply arities_sorted.
    + apply arities_elem.
    + unfold from_terms. by rewrite children_buckets.
  - intros small large Hs Hl.
    assert (Hb : buckets [small; large]
                 = <[2 := [large]]> (<[1 := [small]]> ∅)).
    { unfold buckets. cbn [foldl]. unfold bucket, len.
      rewrite Hs, Hl. cbn [length].
      rewrite lookup_empty. by rewrite lookup_insert_ne, lookup_empty. }
    assert (Hc : children (buckets [small; large]) = [large; small]).
    { rewrite Hb. unfold children.
      assert (Ha : arities (<[2 := [large]]> (<[1 := [small]]> ∅)) = [2; 1])
        by (by vm_compute).
      rewrite Ha. cbn [mbind list_bind app].
      rewrite lookup_insert_eq, lookup_insert_ne, lookup_insert_eq by done.
      done. }
    unfold from_terms. rewrite Hc. cbn [foldl].
    rewrite place_nil, place_head.
    + unfold append, __init__, support. cbn [members target_qubits].
      rewrite Hs, Hl. reflexivity.
    + unfold can_append, __init__, support. cbn [target_qubits].
      rewrite Hs, Hl. apply bool_decide_eq_true_2. set_solver.
Qed.
End claims.

Section cache.
Import TermGroup.
Context `{Scalars} {T : Type} `{!Term T}.

(** C8: [append] puts the term at the end of the members, replaces
    [target_qubits] by its union with the term's support (which leaves it
    as it was when [can_append] held), and empties the cached [_term], so
    that the next read of [term] folds the extended member list; the
    group has no other state. *)
Theorem append_effect (group : @TermGroup.t T) (term : T) :
  members (append group term) = members group ++ [term]
  ∧ target_qubits (append group term) = target_qubits group ∪ support term
  ∧ (can_append group term = true →
     target_qubits (append group term) = target_qubits group)
  ∧ _term (append group term) = None
  ∧ TermGroup.term (append group term)
    = (merged ← to_term (Make (members group ++ [term])
                           (target_qubits group ∪ support term) None) ∅;
       Ok (merged, Make (members group ++ [term])
                     (target_qubits group ∪ support term) (Some merged))).
Proof.
  split_and!; try done.
  intros Hc. apply bool_decide_eq_true_1 in Hc. simpl. set_solver.
Qed.

End cache.

Section symbolic.
Context `{Scalars}.
Implicit Types (mm : gmap nat (list ndarray)).

(** *** Sorted keys *)

Lemma sorted_keys_sorted {V} (d : gmap nat V) :
  StronglySorted lt (SymbolicTerm.sorted_keys d).
Proof.
  unfold SymbolicTerm.sorted_keys.
  assert (Hnd : NoDup (merge_sort le (elements (dom d)))).
  { rewrite merge_sort_Permutation. apply NoDup_elements. }
  pose proof (StronglySorted_merge_sort le (elements (dom d))) as Hle.
  induction Hle as [|x l Hl IH Hx]; [constructor|].
  apply NoDup_cons in Hnd as [Hx' Hnd].
  constructor; [by apply IH|].
  apply Forall_forall. intros y Hy.
  pose proof (proj1 (Forall_forall _ _) Hx y Hy).
  assert (x ≠ y) by (by intros ->). lia.
Qed.

Lemma sorted_keys_elem {V} (d : gmap nat V) q :
  q ∈ SymbolicTerm.sorted_keys d ↔ q ∈ dom d.
Proof.
  unfold SymbolicTerm.sorted_keys.
  by rewrite merge_sort_Permutation, elem_of_elements.
Qed.

(** *** The product on one qubit *)

Lemma matmul_2x2 (a b : ndarray) :
  is_2x2 a → is_2x2 b →
  np.matmul a b = Ok (np.matmul2 a b) ∧ is_2x2 (np.matmul2 a b).
Proof.
  unfold is_2x2, np.matmul, np.matmul2, np.dim. intros -> ->. done.
Qed.

Lemma foldl_matmul (a : ndarray) rest :
  is_2x2 a → Forall is_2x2 rest →
  foldl (λ acc m, matrix ← acc; np.matmul matrix m) (Ok a) rest
    = Ok (foldl np.matmul2 a rest)
  ∧ is_2x2 (foldl np.matmul2 a rest).
Proof.
  intros Ha Hrest. revert a Ha.
  induction Hrest as [|m rest Hm _ IH]; intros a Ha; simpl; [done|].
  destruct (matmul_2x2 a m Ha Hm) as [-> H2]. by apply IH.
Qed.

Lemma matrices_product_ok (ms : list ndarray) :
  ms ≠ [] → Forall is_2x2 ms →
  SymbolicTerm.matrices_product (Some ms) = Ok (ordered_product ms)
  ∧ is_2x2 (ordered_product ms).
Proof.
  intros Hne Hall. destruct ms as [|m rest]; [done|].
  apply Forall_cons in Hall as [Hm Hrest].
  unfold SymbolicTerm.matrices_product, ordered_product.
  destruct (length (m :: rest) =? 1) eqn:Hlen.
  - apply Nat.eqb_eq in Hlen. destruct rest; [done|discriminate].
  - by apply foldl_matmul.
Qed.

(** *** The chain over the qubits *)

Lemma kron_step_ok acc m :
  chainable acc → is_2x2 m →
  np.kron acc (PyTensor m) = Ok (kron_step acc m)
  ∧ chainable (kron_step acc m).
Proof.
  unfold is_2x2. intros Hacc Hm. destruct acc as [|c|a|]; try done; simpl.
  - by rewrite Hm.
  - rewrite bool_decide_eq_true_2; [done|]. by rewrite Hm.
Qed.

Lemma matrix_loop_ok mm acc qs :
  well_formed mm qs → chainable acc →
  let final :=
    foldl (λ acc q, kron_step acc (ordered_product (mm !!! q))) acc qs in
  SymbolicTerm.matrix_loop mm acc qs = (Ok final, final).
Proof.
  revert acc. induction qs as [|q qs IH]; intros acc Hwf Hacc; [done|].
  destruct (Hwf q) as (ms & Hq & Hne & Hall); [left|].
  cbn [SymbolicTerm.matrix_loop foldl]. rewrite Hq.
  destruct (matrices_product_ok ms Hne Hall) as [-> H2].
  cbn [mbind result_bind].
  destruct (kron_step_ok acc _ Hacc H2) as [-> Hc].
  rewrite lookup_total_alt, Hq. simpl.
  apply IH; [|done]. intros q' Hq'. apply Hwf. by right.
Qed.

Lemma foldl_kron_step c (ms : list ndarray) :
  foldl kron_step (PyNum c) ms = kron_chain c ms.
Proof.
  destruct ms as [|m rest]; [done|]. simpl.
  generalize (np.scale c m). induction rest as [|m' rest IH]; intros a;
    simpl; [done|]. apply IH.
Qed.

Lemma matrix_fresh (t : SymbolicTerm.t) :
  SymbolicTerm._matrix t = None →
  well_formed (SymbolicTerm.matrix_map t) (SymbolicTerm.target_qubits t) →
  let chain :=
    kron_chain (SymbolicTerm.coefficient t)
      ((λ q, ordered_product (SymbolicTerm.matrix_map t !!! q))
         <$> SymbolicTerm.target_qubits t) in
  SymbolicTerm.matrix t = (Ok chain, SymbolicTerm.set_matrix t (Some chain)).
Proof.
  intros Hnone Hwf chain. unfold SymbolicTerm.matrix. rewrite Hnone.
  rewrite matrix_loop_ok by done.
  assert (Heq : foldl (λ acc q, kron_step acc
                   (ordered_product (SymbolicTerm.matrix_map t !!! q)))
                  (PyNum (SymbolicTerm.coefficient t))
                  (SymbolicTerm.target_qubits t) = chain).
  { unfold chain. rewrite <- foldl_kron_step. by rewrite foldl_fmap. }
  by rewrite Heq.
Qed.


End symbolic.

Section parsing.
Context `{Scalars}.

Lemma substitute_resolve symbol_map (a a' : atom) :
  SymbolicTerm.substitute symbol_map a = Ok a' → a' = resolve symbol_map a.
Proof.
  unfold SymbolicTerm.substitute, resolve.
  destruct symbol_map as [lookup|]; [|by intros [= <-]].
  destruct (lookup a) as [[q matrix]|]; [|by intros [= <-]].
  destruct a; simpl; intros [= <-]; done.
Qed.

Lemma record_map (st st' : SymbolicTerm.parse_state) (a : atom) pow q :
  SymbolicTerm.record st a pow = Ok st' →
  default [] (SymbolicTerm.p_matrix_map st' !! q)
  = default [] (SymbolicTerm.p_matrix_map st !! q)
    ++ match a with
       | QiboSymbol s =>
           match symbol_matrix s with
           | PyTensor m =>
               if decide (target_qubit s = q)
               then replicate (Z.to_nat pow) m else []
           | _ => []
           end
       | _ => []
       end.
Proof.
  unfold SymbolicTerm.record, SymbolicTerm.times_list.
  destruct a as [s| | |]; try done.
  - destruct (symbol_matrix s) as [|c|m|]; try done.
    + intros [= <-]. simpl. by rewrite app_nil_r.
    + intros [= <-]. simpl.
      destruct (decide (target_qubit s = q)) as [<-|Hne].
      * destruct (SymbolicTerm.p_matrix_map st !! target_qubit s) eqn:Hq;
          by rewrite lookup_insert_eq.
      * rewrite app_nil_r.
        destruct (SymbolicTerm.p_matrix_map st !! target_qubit s);
          by rewrite lookup_insert_ne.
  - intros [= <-]. simpl. by rewrite app_nil_r.
Qed.

Lemma parse_factor_map symbol_map (st st' : SymbolicTerm.parse_state) f q :
  SymbolicTerm.parse_factor symbol_map st f = Ok st' →
  default [] (SymbolicTerm.p_matrix_map st' !! q)
  = default [] (SymbolicTerm.p_matrix_map st !! q)
    ++ contribution symbol_map q f.
Proof.
  unfold SymbolicTerm.parse_factor. intros Hp.
  destruct (SymbolicTerm.split_power f) as [[a pow]|] eqn:Hs; [|done].
  cbn [mbind result_bind] in Hp.
  destruct (SymbolicTerm.substitute symbol_map a) as [a'|] eqn:Ha; [|done].
  cbn [mbind result_bind] in Hp.
  apply substitute_resolve in Ha as ->.
  rewrite (record_map _ _ _ _ q Hp). f_equal.
  unfold contribution, SymbolicTerm.split_power in *.
  destruct f as [b|b [n|]]; simplify_eq; [done|].
  by destruct (SymbolicTerm.is_sympy_symbol b); simplify_eq.
Qed.

Lemma parse_loop_map symbol_map (st st' : SymbolicTerm.parse_state) fs q :
  SymbolicTerm.parse_loop symbol_map st fs = Ok st' →
  default [] (SymbolicTerm.p_matrix_map st' !! q)
  = default [] (SymbolicTerm.p_matrix_map st !! q)
    ++ recorded symbol_map q fs.
Proof.
  revert st. induction fs as [|f fs IH]; intros st Hp; simpl in Hp.
  - injection Hp as <-. by rewrite app_nil_r.
  - destruct (SymbolicTerm.parse_factor symbol_map st f) as [st1|] eqn:Hf;
      [|done].
    cbn [mbind result_bind] in Hp.
    rewrite (IH _ Hp), (parse_factor_map _ _ _ _ q Hf).
    by rewrite <- app_assoc.
Qed.

(** C5: when [from_factors] succeeds, [matrix_map[q]] holds the matrices
    of all tensor-valued factors on qubit [q] in the textual order of the
    product, a power counting as often as its exponent, and the matrix of
    the term is the Kronecker chain of the ordered products of these
    lists: repeated factors on one qubit are composed, not merged into
    one occurrence. *)
Theorem repeated_factors_compose (c : cplx) (fs : list factor)
    (symbol_map : SymbolicTerm.symbol_map_t) (t : SymbolicTerm.t) :
  SymbolicTerm.from_factors c (OrderedProduct fs) symbol_map = Ok t →
  (∀ q, default [] (SymbolicTerm.matrix_map t !! q)
        = recorded symbol_map q fs)
  ∧ ((∀ q, q ∈ SymbolicTerm.target_qubits t →
           recorded symbol_map q fs ≠ []
           ∧ Forall is_2x2 (recorded symbol_map q fs)) →
     let chain :=
       kron_chain (SymbolicTerm.coefficient t)
         ((λ q, ordered_product (recorded symbol_map q fs))
            <$> SymbolicTerm.target_qubits t) in
     SymbolicTerm.matrix t
     = (Ok chain, SymbolicTerm.set_matrix t (Some chain))).
Proof.
  unfold SymbolicTerm.from_factors. intros Hf.
  destruct (SymbolicTerm.parse_loop _ _ fs) as [st|] eqn:Hp; [|done].
  injection Hf as <-.
  assert (Hrec : ∀ q, default [] (SymbolicTerm.p_matrix_map st !! q)
                      = recorded symbol_map q fs).
  { intros q. by rewrite (parse_loop_map _ _ _ _ q Hp). }
  split; [exact Hrec|].
  intros Hwf. cbv zeta.
  set (t := SymbolicTerm.__init__ _ _ _) in *.
  set (chain := kron_chain _ _).
  assert (Hkeys : ∀ q, q ∈ SymbolicTerm.target_qubits t →
            SymbolicTerm.matrix_map t !! q
            = Some (recorded symbol_map q fs)).
  { intros q Hq. apply sorted_keys_elem, elem_of_dom in Hq as [ms Hms].
    cbn [t SymbolicTerm.__init__ SymbolicTerm.matrix_map].
    rewrite <- Hrec, Hms. done. }
  rewrite (matrix_fresh t); [|done|].
  - assert (Hc : kron_chain (SymbolicTerm.coefficient t)
              ((λ q, ordered_product (SymbolicTerm.matrix_map t !!! q))
                 <$> SymbolicTerm.target_qubits t) = chain).
    { unfold chain. f_equal. apply list_fmap_ext. intros i q Hi.
      rewrite lookup_total_alt, Hkeys; [done|].
      by eapply list_elem_of_lookup_2. }
    by rewrite Hc.
  - intros q Hq. exists (recorded symbol_map q fs).
    split; [by apply Hkeys|]. by apply Hwf.
Qed.

(** C10: [from_factors(c, 1)] returns the term with coefficient
    [complex(c)], no factors, an empty [matrix_map] and an empty tuple of
    target qubits; its matrix is the bare coefficient. *)
Theorem from_factors_identity (c : cplx)
    (symbol_map : SymbolicTerm.symbol_map_t) :
  SymbolicTerm.from_factors c One symbol_map
  = Ok (SymbolicTerm.Make (SymbolicTerm.complex c) [] ∅ None None None [])
  ∧ SymbolicTerm.matrix
      (SymbolicTerm.Make (SymbolicTerm.complex c) [] ∅ None None None [])
    = (Ok (PyNum (SymbolicTerm.complex c)),
       SymbolicTerm.Make (SymbolicTerm.complex c) [] ∅
         (Some (PyNum (SymbolicTerm.complex c))) None None []).
Proof. done. Qed.

End parsing.

Section construction.
Context `{Scalars}.

(** C9, amended: the constructor of a base term raises [TypeError] exactly
    when the matrix argument is not [None], not a numeric scalar and not
    a backend tensor; otherwise it succeeds and stores the argument,
    [None] included. *)
Theorem init_type_check (matrix : pyobj) (q : list nat) :
  HamiltonianTerm.__init__ matrix q =
    if is_none matrix || is_numeric matrix || is_tensor matrix
    then Ok (HamiltonianTerm.Make q None None matrix)
    else Raise TypeError.
Proof.
  unfold HamiltonianTerm.__init__.
  by destruct (is_none matrix || is_numeric matrix || is_tensor matrix).
Qed.
End construction.

(** C9, as stated, fails on [None]: it is neither a numeric scalar nor a
    tensor, and the constructor does not raise. *)
Lemma init_accepts_none :
  ¬ (∀ (matrix : @pyobj gaussian) (q : list nat),
       is_numeric matrix = false → is_tensor matrix = false →
       HamiltonianTerm.__init__ matrix q = Raise TypeError).
Proof. intros Hall. by specialize (Hall PyNone [0] eq_refl eq_refl). Qed.

Section scaling.
Context `{Scalars}.

Lemma nth_scale x (l : list cplx) i :
  nth i (cmul x <$> l) c0 = cmul x (nth i l c0).
Proof.
  rewrite !nth_lookup, list_lookup_fmap.
  destruct (l !! i); simpl; [done|]. by rewrite cmul_0_r.
Qed.

Lemma get2_scale x (a : ndarray) i j :
  np.get2 (np.scale x a) i j = cmul x (np.get2 a i j).
Proof. unfold np.get2, np.scale, np.dim. simpl. apply nth_scale. Qed.

(** Scaling a symbolic term whose matrix was never read: the scalar
    enters the coefficient, which leads the chain. *)
Lemma mul_fresh (t : SymbolicTerm.t) (x : cplx) :
  SymbolicTerm._matrix t = None →
  (∀ q ms, SymbolicTerm.matrix_map t !! q = Some ms
           → ms ≠ [] ∧ Forall is_2x2 ms) →
  (SymbolicTerm.matrix (SymbolicTerm.__mul__ t x)).1
  = Ok (kron_chain (cmul (SymbolicTerm.coefficient t) x)
          ((λ q, ordered_product (SymbolicTerm.matrix_map t !!! q))
             <$> SymbolicTerm.sorted_keys (SymbolicTerm.matrix_map t))).
Proof.
  intros Hnone Hwf.
  rewrite (matrix_fresh (SymbolicTerm.__mul__ t x)); [done|done|].
  intros q Hq. apply sorted_keys_elem, elem_of_dom in Hq as [ms Hms].
  exists ms. split; [done|]. by apply (Hwf q).
Qed.

(** Scaling a base term. *)
Lemma mul_base (t : HamiltonianTerm.t) (x : cplx) (m : ndarray) :
  HamiltonianTerm.matrix t = PyTensor m →
  HamiltonianTerm.__mul__ t x
  = Ok (HamiltonianTerm.Make (HamiltonianTerm.target_qubits t) None None
          (PyTensor (np.scale x m))).
Proof. unfold HamiltonianTerm.__mul__. by intros ->. Qed.

End scaling.

(** C4: the term [X(0)] with coefficient 1, scaled by 2. Scaled before its
    matrix was ever read, the result has matrix [2 * X]; scaled after a
    read, the result carries coefficient 2 and still answers [X], the
    matrix cached by the unscaled term. *)
Theorem scaled_cached_term_keeps_old_matrix :
  let t := SymbolicTerm.__init__ (gint 1) [sym_X 0] {[0 := [pauli_X]]} in
  let t_read := (SymbolicTerm.matrix t).2 in
  (SymbolicTerm.matrix t).1 = Ok (PyTensor pauli_X)
  ∧ (SymbolicTerm.matrix (SymbolicTerm.__mul__ t (gint 2))).1
    = Ok (PyTensor (np.scale (gint 2) pauli_X))
  ∧ (SymbolicTerm.matrix (SymbolicTerm.__mul__ t_read (gint 2))).1
    = Ok (PyTensor pauli_X)
  ∧ SymbolicTerm.coefficient (SymbolicTerm.__mul__ t_read (gint 2)) = gint 2
  ∧ np.scale (gint 2) pauli_X ≠ pauli_X.
Proof. split_and!; try (by vm_compute). Qed.


(** * The theorems at concrete terms *)

(** [kron(Z, Z) + kron(X, I)], the matrix that merging [X] over [(0,)]
    into [Z⊗Z] over [(0, 1)] must give. *)
Example merge_ZZ_X :
  HamiltonianTerm.merge term_ZZ term_X
  = (sum ← np.add (PyTensor (np.kron2 pauli_Z pauli_Z))
             (PyTensor (np.kron2 pauli_X pauli_I));
     Ok (HamiltonianTerm.Make [0; 1] None None sum)).
Proof. by vm_compute. Qed.

(** With [X] over qubit [(1,)] the axes are permuted: the result is
    [kron(Z, Z) + kron(I, X)]. *)
Example merge_ZZ_X1 :
  HamiltonianTerm.merge term_ZZ
    (HamiltonianTerm.Make [1] None None (PyTensor pauli_X))
  = (sum ← np.add (PyTensor (np.kron2 pauli_Z pauli_Z))
             (PyTensor (np.kron2 pauli_I pauli_X));
     Ok (HamiltonianTerm.Make [0; 1] None None sum)).
Proof. by vm_compute. Qed.

(** A symbolic receiver: [X(0)] with coefficient 1, merged with the base
    term [X] over qubit [(0,)]. *)
Lemma symbolic_receiver_merge_raises_witness :
  let A := SymbolicTerm.__init__ (gint 1) [sym_X 0] {[0 := [pauli_X]]} in
  let B := SymbolicTerm.BaseTerm term_X in
  SymbolicTerm.target_qubits A = [0]
  ∧ SymbolicTerm.operand_qubits B = [0]
  ∧ (SymbolicTerm.matrix A).1 = Ok (PyTensor pauli_X)
  ∧ SymbolicTerm.operand_matrix B = Ok (PyTensor pauli_X)
  ∧ SymbolicTerm.merge A B = Raise TypeError.
Proof.
  intros A B.
  assert (Hqa : SymbolicTerm.target_qubits A = [0]) by (by vm_compute).
  assert (Hne : SymbolicTerm.target_qubits A ≠ []) by (by rewrite Hqa).
  assert (Ha : NoDup (SymbolicTerm.target_qubits A))
    by (rewrite Hqa; compute_done).
  assert (Hb : NoDup (SymbolicTerm.operand_qubits B)) by compute_done.
  assert (Hsub : SymbolicTerm.operand_qubits B ⊆ SymbolicTerm.target_qubits A)
    by (rewrite Hqa; compute_done).
  assert (HA : (SymbolicTerm.matrix A).1 = Ok (PyTensor pauli_X))
    by (by vm_compute).
  assert (Hoa : is_operator (length (SymbolicTerm.target_qubits A)) pauli_X)
    by (rewrite Hqa; by split).
  assert (Hob : is_operator (length (SymbolicTerm.operand_qubits B)) pauli_X)
    by (by split).
  split_and!; [exact Hqa|reflexivity|exact HA|reflexivity|].
  exact (proj1 (symbolic_receiver_merge_raises A B pauli_X pauli_X
                  Hne Ha Hb Hsub HA Hoa eq_refl Hob)).
Defined.

(** The same with a symbolic term for argument, and the base class on the
    same matrices. *)
Example symbolic_merge_symbolic :
  let A := SymbolicTerm.__init__ (gint 1) [sym_X 0] {[0 := [pauli_X]]} in
  SymbolicTerm.merge A (SymbolicTerm.SymTerm A) = Raise TypeError
  ∧ HamiltonianTerm.merge term_X term_X
    = Ok (HamiltonianTerm.Make [0] None None
            (PyTensor (np.scale (gint 2) pauli_X))).
Proof. split; by vm_compute. Qed.

Lemma merge_embeds_witness :
  NoDup [0; 1] ∧ NoDup [0] ∧ [0] ⊆ [0; 1]
  ∧ is_operator 2 (np.kron2 pauli_Z pauli_Z) ∧ is_operator 1 pauli_X
  ∧ ∃ m,
      HamiltonianTerm.merge term_ZZ term_X
        = Ok (HamiltonianTerm.Make [0; 1] None None (PyTensor m))
      ∧ is_operator 2 m
      ∧ ∀ r c, r < 4 → c < 4 →
          np.get2 m r c
          = cadd (np.get2 (np.kron2 pauli_Z pauli_Z) r c)
                 (embed [0; 1] [0] pauli_X r c).
Proof.
  assert (H1 : NoDup [0; 1]) by compute_done.
  assert (H2 : NoDup [0]) by compute_done.
  assert (H3 : [0] ⊆ [0; 1]) by compute_done.
  assert (H4 : is_operator 2 (np.kron2 pauli_Z pauli_Z)) by (by split).
  assert (H5 : is_operator 1 pauli_X) by (by split).
  split_and!; try done.
  exact (merge_embeds term_ZZ term_X (np.kron2 pauli_Z pauli_Z) pauli_X
           H1 H2 H3 eq_refl H4 eq_refl H5).
Defined.

Lemma from_terms_partition_witness :
  let group := TermGroup.Make [term_ZZ; term_X] {[0; 1]} None in
  group ∈ TermGroup.from_terms [term_X; term_ZZ]
  ∧ term_X ∈ TermGroup.members group
  ∧ TermGroup.support term_X ⊆ TermGroup.target_qubits group
  ∧ mjoin (TermGroup.members <$> TermGroup.from_terms [term_X; term_ZZ])
      ≡ₚ [term_X; term_ZZ].
Proof.
  intros group.
  destruct (from_terms_partition [term_X; term_ZZ])
    as (Hperm & _ & Hgroups & _).
  assert (Hin : group ∈ TermGroup.from_terms [term_X; term_ZZ]).
  { assert (Hg : TermGroup.from_terms [term_X; term_ZZ] = [group])
      by (by vm_compute).
    rewrite Hg. apply list_elem_of_here. }
  assert (Hx : term_X ∈ TermGroup.members group)
    by apply list_elem_of_further, list_elem_of_here.
  split_and!; [exact Hin|exact Hx| |exact Hperm].
  exact (proj2 (Hgroups group Hin) term_X Hx).
Defined.

Lemma from_terms_largest_first_witness :
  qubits term_X = [0] ∧ qubits term_ZZ = [0; 1]
  ∧ TermGroup.from_terms [term_X; term_ZZ]
    = [TermGroup.Make [term_ZZ; term_X] {[0; 1]} None].
Proof.
  split_and!; [reflexivity..|].
  exact (proj2 from_terms_largest_first term_X term_ZZ eq_refl eq_refl).
Defined.

Lemma groups_are_seeded_witness :
  let group := TermGroup.Make [term_ZZ; term_X] {[0; 1]} None in
  group ∈ TermGroup.from_terms [term_X; term_ZZ]
  ∧ TermGroup.target_qubits group = TermGroup.support term_ZZ
  ∧ Forall (λ call, TermGroup.support call.2 ⊆ TermGroup.support call.1)
      (TermGroup.to_term_calls group ∅).
Proof.
  intros group.
  assert (Hin : group ∈ TermGroup.from_terms [term_X; term_ZZ]).
  { assert (Hg : TermGroup.from_terms [term_X; term_ZZ] = [group])
      by (by vm_compute).
    rewrite Hg. apply list_elem_of_here. }
  destruct (groups_are_seeded [term_X; term_ZZ] group ∅ Hin)
    as [(seed & rest & Hm & Hq & _) Hcalls].
  split_and!; [exact Hin| |exact Hcalls].
  injection Hm as <- _. exact Hq.
Defined.

Lemma append_effect_witness :
  TermGroup.can_append (TermGroup.__init__ term_ZZ) term_X = true
  ∧ TermGroup.target_qubits
      (TermGroup.append (TermGroup.__init__ term_ZZ) term_X)
    = TermGroup.target_qubits (TermGroup.__init__ term_ZZ).
Proof.
  assert (Hc : TermGroup.can_append (TermGroup.__init__ term_ZZ) term_X
               = true) by (by vm_compute).
  split; [exact Hc|].
  exact (proj1 (proj2 (proj2
           (append_effect (TermGroup.__init__ term_ZZ) term_X))) Hc).
Defined.


Example symbolic_2XX :
  (t ← SymbolicTerm.from_factors (gint 2)
         (OrderedProduct [Atom (QiboSymbol (sym_X 0));
                          Atom (QiboSymbol (sym_X 1))]) None;
   (SymbolicTerm.matrix t).1)
  = Ok (PyTensor (np.scale (gint 2) (np.kron2 pauli_X pauli_X))).
Proof. by vm_compute. Qed.

(** [X(0) * X(0)] *)
Lemma repeated_factors_compose_witness :
  let fs := [Atom (QiboSymbol (sym_X 0)); Atom (QiboSymbol (sym_X 0))] in
  let t := SymbolicTerm.__init__ (gint 1) [sym_X 0; sym_X 0]
             {[0 := [pauli_X; pauli_X]]} in
  SymbolicTerm.from_factors (gint 1) (OrderedProduct fs) None = Ok t
  ∧ default [] (SymbolicTerm.matrix_map t !! 0) = [pauli_X; pauli_X]
  ∧ (SymbolicTerm.matrix t).1 = Ok (PyTensor pauli_I).
Proof.
  intros fs t.
  assert (Ht : SymbolicTerm.from_factors (gint 1) (OrderedProduct fs) None
               = Ok t) by (by vm_compute).
  destruct (repeated_factors_compose (gint 1) fs None t Ht) as [Hmap Hmat].
  split_and!; [exact Ht| |].
  - rewrite Hmap. by vm_compute.
  - rewrite Hmat; [by vm_compute|].
    intros q Hin.
    assert (Hq : SymbolicTerm.target_qubits t = [0]) by (by vm_compute).
    rewrite Hq in Hin. apply list_elem_of_singleton in Hin as ->.
    split; [done|]. by repeat constructor.
Defined.

(** The same through a power: [X(0) ** 2]. *)
Example symbolic_X_squared :
  (t ← SymbolicTerm.from_factors (gint 1)
         (OrderedProduct [Pow (QiboSymbol (sym_X 0)) (IntegerExp 2)]) None;
   Ok (SymbolicTerm.matrix_map t !! 0, (SymbolicTerm.matrix t).1))
  = Ok (Some [pauli_X; pauli_X], Ok (PyTensor pauli_I)).
Proof. by vm_compute. Qed.

Example X_times_X : np.matmul pauli_X pauli_X = Ok pauli_I.
Proof. by vm_compute. Qed.

(** * Further properties of the code *)

Section merge_cases.
Context `{Scalars}.
Import HamiltonianTerm.

Lemma from_bits_bits k x : x < 2 ^ k → from_bits (bits k x) = x.
Proof.
  revert x. induction k as [|k IH]; intros x Hx; cbn [bits from_bits].
  - simpl in Hx. lia.
  - rewrite bits_length, IH.
    + pose proof (Nat.div_mod_eq x (2 ^ k)). lia.
    + apply Nat.mod_upper_bound. pose proof (pow2_pos k). lia.
Qed.

Lemma digits_all (qa bs : list nat) :
  NoDup qa → length bs = length qa → digit qa bs <$> qa = bs.
Proof.
  intros Hnd Hlen.
  rewrite <- (snd_zip qa bs) at 2 by lia.
  rewrite zip_digit by done. by rewrite <- list_fmap_compose.
Qed.

Lemma embed_by_digits (qa qb : list nat) (mb : ndarray) r c :
  r < 2 ^ length qa → c < 2 ^ length qa →
  embed qa qb mb r c
  = if remaining qa qb (bits (length qa) r)
       =? remaining qa qb (bits (length qa) c)
    then np.get2 mb (gathered qa qb (bits (length qa) r))
                    (gathered qa qb (bits (length qa) c))
    else c0.
Proof.
  intros Hr Hc. unfold embed.
  by rewrite <- (remaining_eq qa qb _ _ (bits_bound _ _ Hr) (bits_bound _ _ Hc)).
Qed.

Lemma filter_none (P : nat → Prop) `{∀ x, Decision (P x)} (l : list nat) :
  (∀ x, x ∈ l → ¬ P x) → filter P l = [].
Proof.
  induction l as [|x l IH]; intros HP; [done|].
  rewrite filter_cons_False by (apply HP; left).
  apply IH. intros y Hy. apply HP. by right.
Qed.

Lemma filter_others_leading (qb ex : list nat) :
  NoDup (qb ++ ex) → filter (λ q, q ∉ qb) (qb ++ ex) = ex.
Proof.
  intros Hnd. apply NoDup_app in Hnd as (_ & Hdis & _).
  rewrite filter_app, filter_none, filter_all; [done| |].
  - intros x Hx Hin. by apply (Hdis x).
  - intros x Hx Hnin. by apply Hnin.
Qed.

Lemma filter_others_trailing (qb ex : list nat) :
  NoDup (ex ++ qb) → filter (λ q, q ∉ qb) (ex ++ qb) = ex.
Proof.
  intros Hnd. apply NoDup_app in Hnd as (_ & Hdis & _).
  rewrite filter_app, filter_all, (filter_none _ qb); [by rewrite app_nil_r| |].
  - intros x Hx Hnin. by apply Hnin.
  - intros x Hx Hin. by apply (Hdis x).
Qed.

Lemma bits_split m n x :
  x < 2 ^ (m + n) →
  bits (m + n) x = bits m (x / 2 ^ n) ++ bits n (x mod 2 ^ n).
Proof.
  intros Hx. pose proof (pow2_pos n).
  rewrite <- bits_app.
  - f_equal. pose proof (Nat.div_mod_eq x (2 ^ n)). lia.
  - apply Nat.Div0.div_lt_upper_bound. rewrite <- Nat.pow_add_r.
    by rewrite (Nat.add_comm n m).
  - apply Nat.mod_upper_bound. lia.
Qed.

(** The digits of an index when the qubits of [qb] lead. *)
Lemma digits_leading (qb ex : list nat) x :
  NoDup (qb ++ ex) → x < 2 ^ length (qb ++ ex) →
  gathered (qb ++ ex) qb (bits (length (qb ++ ex)) x) = x / 2 ^ length ex
  ∧ remaining (qb ++ ex) qb (bits (length (qb ++ ex)) x)
    = x mod 2 ^ length ex.
Proof.
  intros Hnd Hx. unfold gathered, remaining.
  rewrite filter_others_leading by done.
  pose proof (digits_all (qb ++ ex) (bits (length (qb ++ ex)) x) Hnd
                (bits_length _ _)) as Hall.
  rewrite length_app in *.
  rewrite fmap_app in Hall.
  pose proof (eq_trans Hall (bits_split _ _ x Hx)) as Hsplit.
  apply app_inj_1 in Hsplit as [-> ->];
    [|by rewrite length_fmap, bits_length].
  pose proof (pow2_pos (length ex)).
  rewrite !from_bits_bits; [done| |].
  - apply Nat.mod_upper_bound. lia.
  - apply Nat.Div0.div_lt_upper_bound. rewrite <- Nat.pow_add_r.
    by rewrite (Nat.add_comm (length ex)).
Qed.

(** The digits of an index when the qubits of [qb] trail. *)
Lemma digits_trailing (qb ex : list nat) x :
  NoDup (ex ++ qb) → x < 2 ^ length (ex ++ qb) →
  gathered (ex ++ qb) qb (bits (length (ex ++ qb)) x) = x mod 2 ^ length qb
  ∧ remaining (ex ++ qb) qb (bits (length (ex ++ qb)) x)
    = x / 2 ^ length qb.
Proof.
  intros Hnd Hx. unfold gathered, remaining.
  rewrite filter_others_trailing by done.
  pose proof (digits_all (ex ++ qb) (bits (length (ex ++ qb)) x) Hnd
                (bits_length _ _)) as Hall.
  rewrite length_app in *.
  rewrite fmap_app in Hall.
  pose proof (eq_trans Hall (bits_split _ _ x Hx)) as Hsplit.
  apply app_inj_1 in Hsplit as [-> ->];
    [|by rewrite length_fmap, bits_length].
  pose proof (pow2_pos (length qb)).
  rewrite !from_bits_bits; [done| |].
  - apply Nat.Div0.div_lt_upper_bound. rewrite <- Nat.pow_add_r.
    by rewrite (Nat.add_comm (length qb)).
  - apply Nat.mod_upper_bound. lia.
Qed.

Lemma kron2_entry (a b : ndarray) r c :
  r < np.dim 0 a * np.dim 0 b → c < np.dim 1 a * np.dim 1 b →
  np.get2 (np.kron2 a b) r c
  = cmul (np.get2 a (r / np.dim 0 b) (c / np.dim 1 b))
         (np.get2 b (r mod np.dim 0 b) (c mod np.dim 1 b)).
Proof.
  intros Hr Hc. unfold np.get2 at 1. unfold np.kron2, np.dim at 1.
  cbn [shape data nth].
  rewrite tabulate_nth by nia.
  by destruct (div_mod_add r _ c Hc) as [-> ->].
Qed.

Lemma embed_leading (qb ex : list nat) (mb : ndarray) r c :
  NoDup (qb ++ ex) → shape mb = [2 ^ length qb; 2 ^ length qb] →
  r < 2 ^ length (qb ++ ex) → c < 2 ^ length (qb ++ ex) →
  embed (qb ++ ex) qb mb r c
  = np.get2 (np.kron2 mb (np.eye (2 ^ length ex))) r c.
Proof.
  intros Hnd Hsh Hr Hc. rewrite embed_by_digits by done.
  destruct (digits_leading qb ex r Hnd Hr) as [-> ->].
  destruct (digits_leading qb ex c Hnd Hc) as [-> ->].
  rewrite length_app, Nat.pow_add_r in Hr, Hc.
  pose proof (pow2_pos (length ex)).
  rewrite kron2_entry; unfold np.dim; rewrite ?Hsh; cbn [shape np.eye nth];
    [|done..].
  rewrite eye_get2 by (apply Nat.mod_upper_bound; lia).
  destruct (_ =? _); [by rewrite cmul_1_r|by rewrite cmul_0_r].
Qed.

Lemma embed_trailing (qb ex : list nat) (mb : ndarray) r c :
  NoDup (ex ++ qb) → shape mb = [2 ^ length qb; 2 ^ length qb] →
  r < 2 ^ length (ex ++ qb) → c < 2 ^ length (ex ++ qb) →
  embed (ex ++ qb) qb mb r c
  = np.get2 (np.kron2 (np.eye (2 ^ length ex)) mb) r c.
Proof.
  intros Hnd Hsh Hr Hc. rewrite embed_by_digits by done.
  destruct (digits_trailing qb ex r Hnd Hr) as [-> ->].
  destruct (digits_trailing qb ex c Hnd Hc) as [-> ->].
  rewrite length_app, Nat.pow_add_r in Hr, Hc.
  pose proof (pow2_pos (length qb)).
  rewrite kron2_entry; unfold np.dim; rewrite ?Hsh; cbn [shape np.eye nth];
    [|done..].
  rewrite eye_get2 by (apply Nat.Div0.div_lt_upper_bound; lia).
  rewrite cmul_comm.
  destruct (_ =? _); [by rewrite cmul_1_r|by rewrite cmul_0_r].
Qed.

End merge_cases.

Section merge_results.
Context `{Scalars}.
Import HamiltonianTerm.

Lemma operator_ext k (a b : ndarray) :
  is_operator k a → is_operator k b →
  (∀ r c, r < 2 ^ k → c < 2 ^ k → np.get2 a r c = np.get2 b r c) →
  a = b.
Proof.
  destruct a as [sa da], b as [sb db]. unfold is_operator, np.get2, np.dim.
  cbn [shape data]. intros [-> Hla] [-> Hlb] Hent. f_equal.
  apply (nth_ext _ _ c0 c0); [lia|]. intros i Hi.
  pose proof (pow2_pos k).
  specialize (Hent (i / 2 ^ k) (i mod 2 ^ k)). cbn [nth] in Hent.
  replace (i / 2 ^ k * 2 ^ k + i mod 2 ^ k) with i in Hent
    by (pose proof (Nat.div_mod_eq i (2 ^ k)); lia).
  apply Hent.
  - apply Nat.Div0.div_lt_upper_bound. lia.
  - apply Nat.mod_upper_bound. lia.
Qed.

Lemma subset_length (qa qb : list nat) :
  NoDup qa → NoDup qb → qb ⊆ qa → length qb ≤ length qa.
Proof.
  intros Ha Hb Hsub. pose proof (filter_lengths (λ q, q ∈ qb) qa) as Hl.
  rewrite (members_perm qa qb) in Hl by done. lia.
Qed.

(** [merge] once the embedded operator is known as an array. *)
Lemma merge_with_embedding (A B : t) (ma mb E : ndarray) :
  let qa := target_qubits A in
  let qb := target_qubits B in
  NoDup qa → NoDup qb → qb ⊆ qa →
  matrix A = PyTensor ma → is_operator (length qa) ma →
  matrix B = PyTensor mb → shape mb = [2 ^ length qb; 2 ^ length qb] →
  is_operator (length qa) E →
  (∀ r c, r < 2 ^ length qa → c < 2 ^ length qa →
          np.get2 E r c = embed qa qb mb r c) →
  merge A B
  = (sum ← np.add (PyTensor ma) (PyTensor E);
     Ok (Make qa None None sum)).
Proof.
  intros qa qb Ha Hb Hsub HA [Hsa Hla] HB Hsb HE Hent.
  destruct (embedding_steps qa qb mb Ha Hb Hsub Hsb)
    as (m3 & Hsteps & Hs3 & Hl3 & Hentry).
  assert (m3 = E) as ->.
  { apply (operator_ext (length qa)); [done|done|].
    intros r c Hr Hc. by rewrite Hentry, Hent. }
  pose proof (subset_length qa qb Ha Hb Hsub) as Hmk.
  unfold merge, __len__. fold qa qb.
  destruct (length qa <? length qb) eqn:Hlt;
    [apply Nat.ltb_lt in Hlt; lia|].
  rewrite HA, HB.
  repeat lazymatch type of Hsteps with
  | (?r ≫= _) = Ok _ =>
      destruct r; cbn [mbind result_bind] in Hsteps |- *;
      [|discriminate Hsteps]
  end.
  rewrite Hsteps. cbn [mbind result_bind np.add]. unfold np.add_arrays.
  rewrite Hsa, Hs3, bool_decide_eq_true_2 by done.
  done.
Qed.

Lemma kron_eye_operator (mb : ndarray) m n :
  shape mb = [2 ^ m; 2 ^ m] →
  is_operator (m + n) (np.kron2 mb (np.eye (2 ^ n))).
Proof.
  intros Hsh. unfold is_operator, np.kron2, np.dim. rewrite Hsh.
  cbn [shape data nth np.eye]. rewrite tabulate_length, Nat.pow_add_r.
  done.
Qed.

Lemma eye_kron_operator (mb : ndarray) m n :
  shape mb = [2 ^ m; 2 ^ m] →
  is_operator (n + m) (np.kron2 (np.eye (2 ^ n)) mb).
Proof.
  intros Hsh. unfold is_operator, np.kron2, np.dim. rewrite Hsh.
  cbn [shape data nth np.eye]. rewrite tabulate_length, Nat.pow_add_r.
  done.
Qed.

(** X1: [merge] when the qubits of the merged term are the leading qubits
    of the receiver, in the same order: the result is the receiver's
    matrix plus [kron(term.matrix, eye)], as arrays. *)
Theorem merge_leading_qubits (A B : t) (ma mb : ndarray) (ex : list nat) :
  target_qubits A = target_qubits B ++ ex →
  NoDup (target_qubits A) →
  matrix A = PyTensor ma → is_operator (__len__ A) ma →
  matrix B = PyTensor mb → is_operator (__len__ B) mb →
  merge A B
  = (sum ← np.add (PyTensor ma)
             (PyTensor (np.kron2 mb (np.eye (2 ^ length ex))));
     Ok (Make (target_qubits A) None None sum)).
Proof.
  unfold __len__. intros Hq Hnd HA Hma HB [Hsb _].
  assert (Hb : NoDup (target_qubits B))
    by (rewrite Hq in Hnd; by apply NoDup_app in Hnd as (? & _ & _)).
  apply (merge_with_embedding A B ma mb); try done.
  - rewrite Hq. intros q Hin. apply elem_of_app. by left.
  - rewrite Hq, length_app. by apply kron_eye_operator.
  - intros r c Hr Hc. rewrite Hq in *. by rewrite embed_leading.
Qed.

(** X2: [merge] when the qubits of the merged term are the trailing qubits
    of the receiver, in the same order: the result is the receiver's
    matrix plus [kron(eye, term.matrix)], as arrays. *)
Theorem merge_trailing_qubits (A B : t) (ma mb : ndarray) (ex : list nat) :
  target_qubits A = ex ++ target_qubits B →
  NoDup (target_qubits A) →
  matrix A = PyTensor ma → is_operator (__len__ A) ma →
  matrix B = PyTensor mb → is_operator (__len__ B) mb →
  merge A B
  = (sum ← np.add (PyTensor ma)
             (PyTensor (np.kron2 (np.eye (2 ^ length ex)) mb));
     Ok (Make (target_qubits A) None None sum)).
Proof.
  unfold __len__. intros Hq Hnd HA Hma HB [Hsb _].
  assert (Hb : NoDup (target_qubits B))
    by (rewrite Hq in Hnd; by apply NoDup_app in Hnd as (_ & _ & ?)).
  apply (merge_with_embedding A B ma mb); try done.
  - rewrite Hq. intros q Hin. apply elem_of_app. by right.
  - rewrite Hq, length_app. by apply eye_kron_operator.
  - intros r c Hr Hc. rewrite Hq in *. by rewrite embed_trailing.
Qed.

(** X3: [merge] of two terms over the same tuple of qubits adds their
    matrices. *)
Theorem merge_same_qubits (A B : t) (ma mb : ndarray) :
  target_qubits B = target_qubits A →
  NoDup (target_qubits A) →
  matrix A = PyTensor ma → is_operator (__len__ A) ma →
  matrix B = PyTensor mb → is_operator (__len__ A) mb →
  merge A B
  = (sum ← np.add (PyTensor ma) (PyTensor mb);
     Ok (Make (target_qubits A) None None sum)).
Proof.
  unfold __len__. intros Hq Hnd HA Hma HB Hmb.
  apply (merge_with_embedding A B ma mb); rewrite ?Hq; try done.
  - by destruct Hmb.
  - intros r c Hr Hc.
    set (qa := target_qubits A) in *.
    assert (Hnd' : NoDup (qa ++ [])) by (by rewrite app_nil_r).
    assert (Hr' : r < 2 ^ length (qa ++ [])) by (by rewrite app_nil_r).
    assert (Hc' : c < 2 ^ length (qa ++ [])) by (by rewrite app_nil_r).
    destruct (digits_leading qa [] r Hnd' Hr') as [Hg1 Hr1].
    destruct (digits_leading qa [] c Hnd' Hc') as [Hg2 Hr2].
    rewrite app_nil_r in *. cbn [length Nat.pow] in *.
    rewrite embed_by_digits, Hg1, Hg2, Hr1, Hr2 by done.
    by rewrite !Nat.mod_1_r, !Nat.div_1_r.
Qed.

End merge_results.

Section merge_errors.
Context `{Scalars}.
Import HamiltonianTerm.

Lemma index_lt (l : list nat) q : q ∈ l → index q l < length l.
Proof.
  induction l as [|x l IH]; intros Hin; [by apply not_elem_of_nil in Hin|].
  cbn [index length]. case_bool_decide as Hx; [lia|].
  apply elem_of_cons in Hin as [->|Hin]; [done|].
  specialize (IH Hin). lia.
Qed.

Lemma index_nth (l : list nat) q : q ∈ l → l !! index q l = Some q.
Proof.
  induction l as [|x l IH]; intros Hin; [by apply not_elem_of_nil in Hin|].
  cbn [index]. case_bool_decide as Hx; [by subst|].
  apply elem_of_cons in Hin as [->|Hin]; [done|]. by apply IH.
Qed.

Lemma merge_order_entries qa qb i x :
  x ∈ merge_order qa qb i →
  (∃ q, q ∈ qa ∧ q ∈ qb ∧ x = index q qb) ∨ i ≤ x.
Proof.
  revert i. induction qa as [|q qa IH]; intros i Hx; cbn [merge_order] in Hx.
  - by apply not_elem_of_nil in Hx.
  - case_bool_decide as Hq; apply elem_of_cons in Hx as [->|Hx].
    + left. exists q. split_and!; [left|done|done].
    + destruct (IH _ Hx) as [(q' & ? & ? & ?)|?]; [|by right].
      left. exists q'. split_and!; [by right|done|done].
    + by right.
    + destruct (IH _ Hx) as [(q' & ? & ? & ?)|?]; [|right; lia].
      left. exists q'. split_and!; [by right|done|done].
Qed.

Lemma is_axes_missing axes n j :
  j < n → j ∉ axes → np.is_axes axes n = false.
Proof.
  intros Hj Hnin. unfold np.is_axes.
  destruct (forallb _ (seq 0 n)) eqn:Hall; [|by rewrite andb_false_r].
  exfalso. rewrite forallb_forall in Hall.
  specialize (Hall j). rewrite in_seq in Hall.
  specialize (Hall ltac:(lia)).
  apply existsb_exists in Hall as (x & Hx & Heq).
  apply Nat.eqb_eq in Heq as <-. by apply list_elem_of_In in Hx.
Qed.

(** X4: [merge] raises [ValueError] (from [transpose]) when the merged
    term has no more qubits than the receiver, a matrix of its own size,
    and a qubit that the receiver does not have. *)
Theorem merge_foreign_qubit (A B : t) (mb : ndarray) (q : nat) :
  __len__ B ≤ __len__ A →
  matrix B = PyTensor mb →
  shape mb = [2 ^ __len__ B; 2 ^ __len__ B] →
  q ∈ target_qubits B → q ∉ target_qubits A →
  merge A B = Raise ValueError.
Proof.
  unfold __len__. intros Hle HB Hsh Hq Hnq.
  set (qa := target_qubits A) in *. set (qb := target_qubits B) in *.
  set (k := length qa) in *. set (m := length qb) in *.
  unfold merge, __len__. fold qa qb k m.
  destruct (k <? m) eqn:Hlt; [apply Nat.ltb_lt in Hlt; lia|].
  rewrite HB. cbn [np.kron].
  rewrite bool_decide_eq_true_2 by (by rewrite Hsh).
  cbn [mbind result_bind np.reshape_obj np.asarray].
  assert (Hpow : 2 ^ m * 2 ^ (k - m) = 2 ^ k).
  { rewrite <- Nat.pow_add_r. f_equal. lia. }
  assert (Hpow2 : 2 ^ (2 * k) = 2 ^ k * 2 ^ k).
  { rewrite <- Nat.pow_add_r. f_equal. lia. }
  rewrite reshape_ok.
  2:{ rewrite size_replicate_2. unfold np.kron2, np.dim. rewrite Hsh.
      cbn [shape data nth np.eye]. rewrite tabulate_length.
      by rewrite Hpow, Hpow2. }
  cbn [mbind result_bind]. unfold np.transpose. cbn [shape].
  rewrite length_replicate.
  rewrite (is_axes_missing _ _ (index q qb)); [done| |].
  - pose proof (index_lt qb q Hq) as Hidx. fold m in Hidx. lia.
  - intros Hin. apply elem_of_app in Hin as [Hin|Hin].
    + apply merge_order_entries in Hin as [(q' & Hqa & Hqb & Heq)|Hge].
      * assert (q' = q) as ->.
        { pose proof (index_nth qb q Hq) as H1.
          pose proof (index_nth qb q' Hqb) as H2.
          rewrite Heq in H1. congruence. }
        done.
      * pose proof (index_lt qb q Hq) as Hidx. fold m in Hidx. lia.
    + apply list_elem_of_fmap in Hin as (x & Hx & _).
      rewrite merge_order_length in Hx.
      pose proof (index_lt qb q Hq) as Hidx. fold m k in Hidx, Hx. lia.
Qed.

End merge_errors.

Section folding_groups.
Context `{Scalars}.
Import TermGroup.

Lemma scale_operator k x (m : ndarray) :
  is_operator k m → is_operator k (np.scale x m).
Proof.
  unfold is_operator, np.scale. cbn [shape data].
  intros [-> Hl]. by rewrite length_fmap.
Qed.

Lemma rescaled_well_shaped coefficients (term : HamiltonianTerm.t) :
  well_shaped term →
  ∃ term',
    rescaled coefficients term = Ok term'
    ∧ HamiltonianTerm.target_qubits term'
      = HamiltonianTerm.target_qubits term
    ∧ HamiltonianTerm.matrix term'
      = PyTensor (rescaled_operator coefficients term)
    ∧ is_operator (length (HamiltonianTerm.target_qubits term))
        (rescaled_operator coefficients term).
Proof.
  intros (Hnd & m & Hm & Hop).
  unfold rescaled, rescaled_operator, operator.
  change (owner term) with (HamiltonianTerm.hamiltonian term).
  destruct (coefficients !! _) as [c|].
  - cbn [times HamiltonianTerm_Term]. unfold HamiltonianTerm.__mul__.
    rewrite Hm. cbn. eexists. split_and!; try done.
    by apply scale_operator.
  - exists term. rewrite Hm. by split_and!.
Qed.

Lemma support_subset (a b : HamiltonianTerm.t) :
  support b ⊆ support a →
  HamiltonianTerm.target_qubits b ⊆ HamiltonianTerm.target_qubits a.
Proof.
  rewrite !support_base. intros Hsub q Hq.
  apply (elem_of_list_to_set (C := gset nat)), Hsub.
  by apply elem_of_list_to_set.
Qed.

(** Entries of a merge, as a lemma on any receiver. *)
Lemma merge_entries (A B : HamiltonianTerm.t) (ma mb : ndarray) :
  let qa := HamiltonianTerm.target_qubits A in
  let qb := HamiltonianTerm.target_qubits B in
  NoDup qa → NoDup qb → qb ⊆ qa →
  HamiltonianTerm.matrix A = PyTensor ma → is_operator (length qa) ma →
  HamiltonianTerm.matrix B = PyTensor mb →
  shape mb = [2 ^ length qb; 2 ^ length qb] →
  ∃ m,
    HamiltonianTerm.merge A B
      = Ok (HamiltonianTerm.Make qa None None (PyTensor m))
    ∧ is_operator (length qa) m
    ∧ ∀ r c, r < 2 ^ length qa → c < 2 ^ length qa →
        np.get2 m r c = cadd (np.get2 ma r c) (embed qa qb mb r c).
Proof.
  intros qa qb Ha Hb Hsub HA Hma HB Hsb.
  destruct (embedding_steps qa qb mb Ha Hb Hsub Hsb)
    as (m3 & _ & Hs3 & Hl3 & Hentry).
  rewrite (merge_with_embedding A B ma mb m3) by done.
  destruct Hma as [Hsa Hla].
  cbn [np.add]. unfold np.add_arrays.
  rewrite Hsa, Hs3, bool_decide_eq_true_2 by done.
  cbn [mbind result_bind]. eexists. split; [done|]. split.
  - split; [done|]. cbn [data]. rewrite length_zip_with. lia.
  - intros r c Hr Hc. rewrite <- Hentry by done. by apply get2_add.
Qed.

Lemma fold_merge_sums coefficients (merged : HamiltonianTerm.t)
    (mm : ndarray) rest :
  let qa := HamiltonianTerm.target_qubits merged in
  NoDup qa →
  HamiltonianTerm.matrix merged = PyTensor mm →
  is_operator (length qa) mm →
  Forall well_shaped rest →
  Forall (λ term, support term ⊆ support merged) rest →
  ∃ result m,
    fold_merge coefficients merged rest = Ok result
    ∧ HamiltonianTerm.target_qubits result = qa
    ∧ HamiltonianTerm.matrix result = PyTensor m
    ∧ is_operator (length qa) m
    ∧ ∀ r c, r < 2 ^ length qa → c < 2 ^ length qa →
        np.get2 m r c
        = foldl (λ acc term,
                   cadd acc (embed qa (HamiltonianTerm.target_qubits term)
                               (rescaled_operator coefficients term) r c))
                (np.get2 mm r c) rest.
Proof.
  intros qa Hnd Hm Hop Hws Hsub. subst qa.
  revert merged mm Hnd Hm Hop Hsub.
  induction Hws as [|term rest Hterm _ IH];
    intros merged mm Hnd Hm Hop Hsub.
  - exists merged, mm. by split_and!.
  - apply Forall_cons in Hsub as [Hs Hsub].
    cbn [fold_merge foldl].
    destruct (rescaled_well_shaped coefficients term Hterm)
      as (term' & -> & Hq' & Hm' & [Hsh' _]).
    cbn [mbind result_bind merge_with HamiltonianTerm_Term].
    destruct Hterm as (Hndt & _).
    destruct (merge_entries merged term' mm
                (rescaled_operator coefficients term))
      as (m1 & -> & Hop1 & Hent1); rewrite ?Hq'; try done.
    { by apply support_subset. }
    cbn [mbind result_bind].
    set (merged1 := HamiltonianTerm.Make _ None None (PyTensor m1)).
    destruct (IH merged1 m1) as (result & m & Hres & Hqr & Hmr & Hopr & Hentr);
      try done.
    exists result, m. split_and!; try done.
    intros r c Hr Hc. rewrite (Hentr r c Hr Hc).
    cbn [merged1 HamiltonianTerm.target_qubits]. f_equal.
    rewrite Hent1 by done. by rewrite Hq'.
Qed.

Lemma to_term_entries (group : @TermGroup.t HamiltonianTerm.t)
    (coefficients : gmap (option nat) cplx)
    (seed : HamiltonianTerm.t) (rest : list HamiltonianTerm.t) :
  members group = seed :: rest →
  Forall well_shaped (seed :: rest) →
  Forall (λ term, support term ⊆ support seed) rest →
  let qa := HamiltonianTerm.target_qubits seed in
  ∃ result m,
    to_term group coefficients = Ok result
    ∧ HamiltonianTerm.target_qubits result = qa
    ∧ HamiltonianTerm.matrix result = PyTensor m
    ∧ is_operator (length qa) m
    ∧ ∀ r c, r < 2 ^ length qa → c < 2 ^ length qa →
        np.get2 m r c
        = foldl (λ acc term,
                   cadd acc (embed qa (HamiltonianTerm.target_qubits term)
                               (rescaled_operator coefficients term) r c))
                (np.get2 (rescaled_operator coefficients seed) r c) rest.
Proof.
  intros Hmem Hws Hsub qa. apply Forall_cons in Hws as [Hseed Hws].
  unfold to_term. rewrite Hmem.
  destruct (rescaled_well_shaped coefficients seed Hseed)
    as (seed' & -> & Hq' & Hm' & Hop').
  cbn [mbind result_bind].
  destruct Hseed as (Hnd & _).
  destruct (fold_merge_sums coefficients seed'
              (rescaled_operator coefficients seed) rest)
    as (result & m & Hres & Hqr & Hmr & Hopr & Hentr);
    rewrite ?Hq'; try done.
  { eapply Forall_impl; [exact Hsub|]. intros term Hterm. simpl in Hterm.
    by rewrite (support_base seed'), Hq', <- (support_base seed). }
  exists result, m. rewrite Hq' in *. by split_and!.
Qed.

(** X5: [to_term] on a group whose members are well shaped and lie inside
    the support of the first one returns a term over the qubits of the
    first member whose matrix is, entry by entry, the rescaled matrix of
    the first member plus the rescaled operators of the later members,
    each embedded into those qubits, added in member order. *)
Theorem to_term_sums_members (group : @TermGroup.t HamiltonianTerm.t)
    (coefficients : gmap (option nat) cplx)
    (seed : HamiltonianTerm.t) (rest : list HamiltonianTerm.t) :
  members group = seed :: rest →
  Forall well_shaped (seed :: rest) →
  Forall (λ term, support term ⊆ support seed) rest →
  let qa := HamiltonianTerm.target_qubits seed in
  ∃ result m,
    to_term group coefficients = Ok result
    ∧ HamiltonianTerm.target_qubits result = qa
    ∧ HamiltonianTerm.matrix result = PyTensor m
    ∧ is_operator (length qa) m
    ∧ ∀ r c, r < 2 ^ length qa → c < 2 ^ length qa →
        np.get2 m r c
        = foldl (λ acc term,
                   cadd acc (embed qa (HamiltonianTerm.target_qubits term)
                               (rescaled_operator coefficients term) r c))
                (np.get2 (rescaled_operator coefficients seed) r c) rest.
Proof. apply to_term_entries. Qed.

End folding_groups.

Section first_fit_groups.
Context {T : Type} `{!Qubits T}.
Import TermGroup.
Implicit Types (groups : list (@TermGroup.t T)).

Lemma append_keeps_support (group : @TermGroup.t T) child :
  can_append group child = true →
  target_qubits (append group child) = target_qubits group.
Proof.
  intros Hc. apply bool_decide_eq_true_1 in Hc. simpl. set_solver.
Qed.

Lemma first_fit_place groups child :
  first_fit groups → first_fit (place groups child).
Proof.
  intros Hff. unfold place.
  destruct (list_find _ groups) as [[i0 g0]|] eqn:Hfind.
  - apply list_find_Some in Hfind as (Hi0 & Hc0 & Hearlier).
    pose proof (lookup_lt_Some _ _ _ Hi0) as Hlt0.
    intros i j gi gj term Hij Hi Hj Hterm Hsub.
    assert (∃ gi0, groups !! i = Some gi0
                   ∧ target_qubits gi = target_qubits gi0) as (gi0 & Hgi0 & Hq).
    { destruct (decide (i = i0)) as [->|Hne].
      - rewrite list_lookup_insert_eq in Hi by done. injection Hi as <-.
        exists g0. split; [done|]. by apply append_keeps_support.
      - rewrite list_lookup_insert_ne in Hi by done. by exists gi. }
    rewrite Hq in Hsub.
    destruct (decide (j = i0)) as [->|Hne].
    + rewrite list_lookup_insert_eq in Hj by done. injection Hj as <-.
      cbn [append members] in Hterm.
      apply elem_of_app in Hterm as [Hterm|Hterm].
      * by apply (Hff i i0 gi0 g0 term).
      * apply list_elem_of_singleton in Hterm as ->.
        apply (Hearlier i gi0 Hgi0 Hij).
        unfold can_append. by apply bool_decide_eq_true_2.
    + rewrite list_lookup_insert_ne in Hj by done.
      by apply (Hff i j gi0 gj term).
  - apply list_find_None in Hfind.
    intros i j gi gj term Hij Hi Hj Hterm Hsub.
    pose proof (lookup_lt_Some _ _ _ Hj) as Hltj.
    rewrite length_app in Hltj. cbn [length] in Hltj.
    assert (Hi' : groups !! i = Some gi).
    { rewrite lookup_app_l in Hi by lia. done. }
    destruct (decide (j < length groups)) as [Hjl|Hjl].
    + rewrite lookup_app_l in Hj by done.
      by apply (Hff i j gi gj term).
    + rewrite lookup_app_r in Hj by lia.
      replace (j - length groups) with 0 in Hj by lia.
      injection Hj as <-. cbn [__init__ members] in Hterm.
      apply list_elem_of_singleton in Hterm as ->.
      apply (proj1 (Forall_forall _ _) Hfind gi).
      * by eapply list_elem_of_lookup_2.
      * unfold can_append. by apply bool_decide_eq_true_2.
Qed.

Lemma foldl_place_invariant (P : list (@TermGroup.t T) → Prop) groups cs :
  (∀ gs c, P gs → P (place gs c)) → P groups → P (foldl place groups cs).
Proof.
  intros Hstep. revert groups.
  induction cs as [|c cs IH]; intros groups HP; [done|].
  cbn [foldl]. by apply IH, Hstep.
Qed.

(** X7: in the groups of [from_terms], no member of a group fits into the
    support of a group that comes earlier in the list. *)
Theorem from_terms_first_fit (terms : list T) :
  first_fit (from_terms terms).
Proof.
  unfold from_terms. apply foldl_place_invariant.
  - intros gs c. apply first_fit_place.
  - intros i j gi gj term _ Hi. done.
Qed.

(** *** The seed is a largest member *)

Lemma place_seed_largest groups child :
  Forall seed_largest groups →
  (∀ group term, group ∈ groups → term ∈ members group →
                 len child ≤ len term) →
  Forall seed_largest (place groups child).
Proof.
  intros Hall Hsmall.
  destruct (place_cases groups child)
    as [(i & group & _ & Hi & _ & ->)|(_ & _ & ->)].
  - apply Forall_insert; [done|].
    pose proof (Forall_lookup_1 _ _ _ _ Hall Hi) as Hg.
    pose proof (list_elem_of_lookup_2 _ _ _ Hi) as Hin.
    intros seed rest Hm. cbn [append members] in Hm.
    destruct (members group) as [|seed0 rest0] eqn:Hmg.
    + injection Hm as <- <-. constructor.
    + injection Hm as <- <-. apply Forall_app. split.
      * by apply Hg.
      * constructor; [|done]. apply (Hsmall group); [done|].
        rewrite Hmg. left.
  - apply Forall_app. split; [done|]. constructor; [|done].
    intros seed rest [= <- <-]. constructor.
Qed.

Lemma place_members_elem groups child group term :
  group ∈ place groups child → term ∈ members group →
  term = child ∨ ∃ group0, group0 ∈ groups ∧ term ∈ members group0.
Proof.
  intros Hg Hterm.
  destruct (place_cases groups child)
    as [(i & g0 & _ & Hi & _ & Heq)|(_ & _ & Heq)]; rewrite Heq in Hg.
  - apply list_elem_of_lookup in Hg as [j Hj].
    destruct (decide (j = i)) as [->|Hne].
    + rewrite list_lookup_insert_eq in Hj
        by (by eapply lookup_lt_Some).
      injection Hj as <-. cbn [append members] in Hterm.
      apply elem_of_app in Hterm as [Hterm|Hterm].
      * right. exists g0. split; [by eapply list_elem_of_lookup_2|done].
      * left. by apply list_elem_of_singleton in Hterm.
    + rewrite list_lookup_insert_ne in Hj by done.
      right. exists group. split; [by eapply list_elem_of_lookup_2|done].
  - apply elem_of_app in Hg as [Hg|Hg].
    + right. by exists group.
    + apply list_elem_of_singleton in Hg as ->.
      left. by apply list_elem_of_singleton in Hterm.
Qed.

Lemma foldl_place_seed_largest groups cs :
  StronglySorted (λ a b, len b ≤ len a) cs →
  Forall seed_largest groups →
  (∀ group term c, group ∈ groups → term ∈ members group → c ∈ cs →
                   len c ≤ len term) →
  Forall seed_largest (foldl place groups cs).
Proof.
  intros Hs. revert groups.
  induction Hs as [|c cs Hcs IH Hc]; intros groups Hall Hsmall; [done|].
  cbn [foldl]. apply IH.
  - apply place_seed_largest; [done|].
    intros group term Hg Hterm. apply (Hsmall group); [done|done|left].
  - intros group term c' Hg Hterm Hc'.
    destruct (place_members_elem _ _ _ _ Hg Hterm)
      as [->|(group0 & Hg0 & Hterm0)].
    + by apply (proj1 (Forall_forall _ _) Hc).
    + apply (Hsmall group0); [done|done|by right].
Qed.

(** X8: in every group of [from_terms], no member has more qubits than the
    first member. *)
Theorem seed_is_largest (terms : list T) (group : @TermGroup.t T)
    (seed : T) (rest : list T) :
  group ∈ from_terms terms →
  members group = seed :: rest →
  Forall (λ term, len term ≤ len seed) rest.
Proof.
  intros Hg Hm.
  assert (Hall : Forall seed_largest (from_terms terms)).
  { unfold from_terms. apply foldl_place_seed_largest.
    - apply children_sorted.
    - constructor.
    - intros g t c Hin. by apply not_elem_of_nil in Hin. }
  by apply (proj1 (Forall_forall _ _) Hall group Hg).
Qed.

(** X9: [append] never removes a qubit from the support: afterwards the
    appended term satisfies [can_append], and so does every term that
    satisfied it before. *)
Theorem append_grows_support (group : @TermGroup.t T) (term other : T) :
  target_qubits group ⊆ target_qubits (append group term)
  ∧ can_append (append group term) term = true
  ∧ (can_append group other = true →
     can_append (append group term) other = true).
Proof.
  unfold can_append. cbn [append target_qubits]. split_and!.
  - set_solver.
  - apply bool_decide_eq_true_2. set_solver.
  - intros Hc. apply bool_decide_eq_true_1 in Hc.
    apply bool_decide_eq_true_2. set_solver.
Qed.

Lemma from_terms_uncached (terms : list T) :
  Forall (λ group, _term group = None) (from_terms terms).
Proof.
  unfold from_terms.
  apply (foldl_place_invariant (Forall (λ group, _term group = None)));
    [|constructor].
  intros gs c Hall.
  destruct (place_cases gs c)
    as [(i & group & _ & Hi & _ & ->)|(_ & _ & ->)].
  - by apply Forall_insert.
  - apply Forall_app. split; [done|]. by constructor.
Qed.

Lemma from_terms_member_elem (terms : list T) group term :
  group ∈ from_terms terms → term ∈ members group → term ∈ terms.
Proof.
  intros Hg Hterm. rewrite <- (from_terms_members terms).
  apply list_elem_of_join. exists (members group). split; [done|].
  apply list_elem_of_fmap. by exists group.
Qed.

End first_fit_groups.

Section merged_groups.
Context `{Scalars}.
Import TermGroup.

(** X6: for well-shaped base terms, every group of [from_terms] folds
    without error under any coefficients, into a term on exactly the
    group's support; the [term] property stores that term and returns it
    again on the next read. *)
Theorem grouped_terms_merge (terms : list HamiltonianTerm.t)
    (group : @TermGroup.t HamiltonianTerm.t) :
  Forall well_shaped terms →
  group ∈ from_terms terms →
  (∀ coefficients, ∃ merged,
      to_term group coefficients = Ok merged
      ∧ support merged = target_qubits group)
  ∧ ∃ merged,
      let cached := Make (members group) (target_qubits group)
                      (Some merged) in
      TermGroup.term group = Ok (merged, cached)
      ∧ TermGroup.term cached = Ok (merged, cached).
Proof.
  intros Hws Hg.
  pose proof (proj1 (Forall_forall _ _) (seeded_from_terms terms) group Hg)
    as (seed & rest & Hm & Hq & Hrest).
  assert (Hwsm : Forall well_shaped (seed :: rest)).
  { rewrite <- Hm. apply Forall_forall. intros term Hterm.
    apply (proj1 (Forall_forall _ _) Hws).
    by eapply from_terms_member_elem. }
  assert (Hto : ∀ coefficients, ∃ merged,
             to_term group coefficients = Ok merged
             ∧ support merged = target_qubits group).
  { intros coefficients.
    destruct (to_term_entries group coefficients seed rest Hm Hwsm Hrest)
      as (merged & m & Hres & Hqm & _).
    exists merged. split; [done|].
    by rewrite Hq, (support_base merged), Hqm. }
  split; [exact Hto|].
  destruct (Hto ∅) as (merged & Hres & _). exists merged.
  unfold TermGroup.term.
  rewrite (proj1 (Forall_forall _ _) (from_terms_uncached terms) group Hg).
  by rewrite Hres.
Qed.

End merged_groups.

Section symbolic_reads.
Context `{Scalars}.



Lemma sorted_keys_singleton {V} q (v : V) :
  SymbolicTerm.sorted_keys ({[q := v]} : gmap nat V) = [q].
Proof.
  unfold SymbolicTerm.sorted_keys.
  by rewrite dom_singleton_L, elements_singleton.
Qed.

(** X11: a tensor-valued symbol raised to a power that is not positive is
    accepted by [from_factors]: the term gets the symbol's qubit with an
    empty list of matrices, its [matrix] raises [IndexError] on the first
    read and returns the bare coefficient on the second. *)
Theorem nonpositive_power (c : cplx) (s : Symbol) (m : ndarray) (n : Z) :
  symbol_matrix s = PyTensor m → (n ≤ 0)%Z →
  let t := SymbolicTerm.__init__ c [] {[target_qubit s := []]} in
  SymbolicTerm.from_factors c
    (OrderedProduct [Pow (QiboSymbol s) (IntegerExp n)]) None = Ok t
  ∧ SymbolicTerm.target_qubits t = [target_qubit s]
  ∧ SymbolicTerm.matrix t
    = (Raise IndexError, SymbolicTerm.set_matrix t (Some (PyNum c)))
  ∧ (SymbolicTerm.matrix (SymbolicTerm.matrix t).2).1 = Ok (PyNum c).
Proof.
  intros Hs Hn t.
  assert (Hq : SymbolicTerm.target_qubits t = [target_qubit s])
    by apply sorted_keys_singleton.
  assert (Hm : SymbolicTerm.matrix t
               = (Raise IndexError,
                  SymbolicTerm.set_matrix t (Some (PyNum c)))).
  { unfold SymbolicTerm.matrix. cbn [t SymbolicTerm.__init__ SymbolicTerm._matrix].
    fold t. rewrite Hq. cbn [SymbolicTerm.matrix_map t SymbolicTerm.__init__
                              SymbolicTerm.matrix_loop].
    by rewrite lookup_singleton_eq. }
  split_and!; [|done|done|by rewrite Hm].
  unfold SymbolicTerm.from_factors, SymbolicTerm.parse_loop,
    SymbolicTerm.parse_factor.
  cbn [SymbolicTerm.split_power SymbolicTerm.is_sympy_symbol
       SymbolicTerm.substitute mbind result_bind SymbolicTerm.record].
  rewrite Hs. cbn [SymbolicTerm.p_matrix_map SymbolicTerm.p_factors
                   SymbolicTerm.p_coefficient].
  rewrite lookup_empty. unfold SymbolicTerm.times_list.
  replace (Z.to_nat n) with 0 by lia. cbn [replicate].
  by rewrite app_nil_r.
Qed.

End symbolic_reads.

Section parsing_more.
Context `{Scalars}.

Lemma split_power_base f a pow :
  SymbolicTerm.split_power f = Ok (a, pow) → base_and_power f = (a, pow).
Proof.
  unfold SymbolicTerm.split_power, base_and_power.
  destruct f as [b|b [n|]]; [by intros [= <- <-]| |done].
  by destruct (SymbolicTerm.is_sympy_symbol b); intros [= <- <-].
Qed.

(** What one round of the loop does to the three parts of the state. *)
Lemma parse_factor_state symbol_map (st st' : SymbolicTerm.parse_state) f :
  SymbolicTerm.parse_factor symbol_map st f = Ok st' →
  SymbolicTerm.p_coefficient st'
    = foldl cmul (SymbolicTerm.p_coefficient st) (scalar_part symbol_map f)
  ∧ SymbolicTerm.p_factors st'
    = SymbolicTerm.p_factors st ++ symbol_part symbol_map f
  ∧ dom (SymbolicTerm.p_matrix_map st')
    = dom (SymbolicTerm.p_matrix_map st)
      ∪ list_to_set (tensor_qubit symbol_map f).
Proof.
  unfold SymbolicTerm.parse_factor. intros Hp.
  destruct (SymbolicTerm.split_power f) as [[a pow]|] eqn:Hs; [|done].
  cbn [mbind result_bind] in Hp.
  destruct (SymbolicTerm.substitute symbol_map a) as [a'|] eqn:Ha; [|done].
  cbn [mbind result_bind] in Hp.
  apply substitute_resolve in Ha as ->.
  apply split_power_base in Hs.
  unfold scalar_part, symbol_part, tensor_qubit. rewrite Hs. cbn [fst snd].
  unfold SymbolicTerm.record, SymbolicTerm.times_list in Hp.
  destruct (resolve symbol_map a) as [s| | |]; try done.
  - destruct (symbol_matrix s) as [|v|m|]; try done.
    + injection Hp as <-. cbn. split_and!; [done|by rewrite app_nil_r|].
      set_solver.
    + injection Hp as <-.
      cbn [SymbolicTerm.p_coefficient SymbolicTerm.p_factors
           SymbolicTerm.p_matrix_map foldl].
      split_and!; [done|done|].
      destruct (SymbolicTerm.p_matrix_map st !! target_qubit s);
        rewrite dom_insert_L; set_solver.
  - injection Hp as <-. cbn. split_and!; [done|by rewrite app_nil_r|].
    set_solver.
Qed.

Lemma parse_loop_state symbol_map (st st' : SymbolicTerm.parse_state) fs :
  SymbolicTerm.parse_loop symbol_map st fs = Ok st' →
  SymbolicTerm.p_coefficient st'
    = foldl cmul (SymbolicTerm.p_coefficient st)
        (fs ≫= scalar_part symbol_map)
  ∧ SymbolicTerm.p_factors st'
    = SymbolicTerm.p_factors st ++ (fs ≫= symbol_part symbol_map)
  ∧ dom (SymbolicTerm.p_matrix_map st')
    = dom (SymbolicTerm.p_matrix_map st)
      ∪ list_to_set (fs ≫= tensor_qubit symbol_map).
Proof.
  revert st. induction fs as [|f fs IH]; intros st Hp; simpl in Hp.
  - injection Hp as <-. cbn. split_and!; [done|by rewrite app_nil_r|].
    set_solver.
  - destruct (SymbolicTerm.parse_factor symbol_map st f) as [st1|] eqn:Hf;
      [|done].
    cbn [mbind result_bind] in Hp.
    destruct (parse_factor_state _ _ _ _ Hf) as (Hc1 & Hf1 & Hd1).
    destruct (IH _ Hp) as (Hc & Hfs & Hd).
    rewrite Hc, Hfs, Hd, Hc1, Hf1, Hd1. cbn [mbind list_bind].
    split_and!.
    + by rewrite foldl_app.
    + by rewrite <- app_assoc.
    + rewrite list_to_set_app_L. set_solver.
Qed.

(** X12: the coefficient of the term that [from_factors] returns is the
    given coefficient multiplied, in the order of the factors, by the
    value of each scalar-valued symbol (once, whatever its power) and by
    [1j] for each imaginary unit. *)
Theorem from_factors_coefficient (c : cplx) (fs : list factor)
    (symbol_map : SymbolicTerm.symbol_map_t) (t : SymbolicTerm.t) :
  SymbolicTerm.from_factors c (OrderedProduct fs) symbol_map = Ok t →
  SymbolicTerm.coefficient t = foldl cmul c (fs ≫= scalar_part symbol_map).
Proof.
  unfold SymbolicTerm.from_factors. intros Hf.
  destruct (SymbolicTerm.parse_loop _ _ fs) as [st|] eqn:Hp; [|done].
  injection Hf as <-.
  by destruct (parse_loop_state _ _ _ _ Hp) as (-> & _ & _).
Qed.

(** X13: [factors] of the term that [from_factors] returns lists the
    tensor-valued symbols in the order of the product, each as often as
    its power, and [target_qubits] are, in ascending order and without
    repeats, the qubits of the tensor-valued symbols. *)
Theorem from_factors_support (c : cplx) (fs : list factor)
    (symbol_map : SymbolicTerm.symbol_map_t) (t : SymbolicTerm.t) :
  SymbolicTerm.from_factors c (OrderedProduct fs) symbol_map = Ok t →
  SymbolicTerm.factors t = fs ≫= symbol_part symbol_map
  ∧ StronglySorted lt (SymbolicTerm.target_qubits t)
  ∧ ∀ q, q ∈ SymbolicTerm.target_qubits t
         ↔ q ∈ fs ≫= tensor_qubit symbol_map.
Proof.
  unfold SymbolicTerm.from_factors. intros Hf.
  destruct (SymbolicTerm.parse_loop _ _ fs) as [st|] eqn:Hp; [|done].
  injection Hf as <-.
  destruct (parse_loop_state _ _ _ _ Hp) as (_ & Hfs & Hd).
  cbn [SymbolicTerm.__init__ SymbolicTerm.factors SymbolicTerm.target_qubits].
  split_and!.
  - by rewrite Hfs.
  - apply sorted_keys_sorted.
  - intros q. rewrite sorted_keys_elem, Hd.
    cbn [SymbolicTerm.p_matrix_map]. rewrite dom_empty_L.
    rewrite elem_of_union, elem_of_list_to_set. set_solver.
Qed.

(** *** Which products parse *)

Lemma parse_factor_recognised (st : SymbolicTerm.parse_state) f :
  (∃ st', SymbolicTerm.parse_factor None st f = Ok st')
  ↔ recognised f = true.
Proof.
  unfold SymbolicTerm.parse_factor, recognised.
  destruct f as [a|a [n|]]; cbn [SymbolicTerm.split_power];
    [| |split; [by intros [? ?]|by destruct a]].
  - destruct a as [s| | |];
      cbn [mbind result_bind SymbolicTerm.substitute SymbolicTerm.record];
      [|split; [by intros [? ?]|done]|split; eauto
       |split; [by intros [? ?]|done]].
    destruct (symbol_matrix s); cbn [is_tensor is_numeric orb];
      split; try done; try (by intros [? ?]); eauto.
  - destruct a as [s| | |];
      cbn [SymbolicTerm.is_sympy_symbol mbind result_bind
           SymbolicTerm.substitute SymbolicTerm.record];
      try (split; [by intros [? ?]|done]).
    destruct (symbol_matrix s); cbn [is_tensor is_numeric orb];
      split; try done; try (by intros [? ?]); eauto.
Qed.

Lemma parse_loop_recognised (st : SymbolicTerm.parse_state) fs :
  (∃ st', SymbolicTerm.parse_loop None st fs = Ok st')
  ↔ forallb recognised fs = true.
Proof.
  revert st. induction fs as [|f fs IH]; intros st;
    cbn [SymbolicTerm.parse_loop forallb].
  - split; eauto.
  - rewrite andb_true_iff, <- (parse_factor_recognised st f). split.
    + intros [st' Hst'].
      destruct (SymbolicTerm.parse_factor None st f) as [st1|] eqn:Hf;
        [|done].
      cbn [mbind result_bind] in Hst'. split; [eauto|].
      apply (IH st1). eauto.
    + intros [[st1 Hf] Hrest]. rewrite Hf. cbn [mbind result_bind].
      by apply IH.
Qed.

(** X14: without a [symbol_map], [from_factors] succeeds exactly on the
    products whose factors are the imaginary unit or a symbol with a
    tensor or a number for matrix, plain or to an integer power. *)
Theorem from_factors_succeeds_iff (c : cplx) (fs : list factor) :
  (∃ t, SymbolicTerm.from_factors c (OrderedProduct fs) None = Ok t)
  ↔ forallb recognised fs = true.
Proof.
  unfold SymbolicTerm.from_factors.
  rewrite <- (parse_loop_recognised (SymbolicTerm.Parse c [] ∅) fs).
  split.
  - intros [t Ht].
    destruct (SymbolicTerm.parse_loop _ _ fs) as [st|]; [eauto|done].
  - intros [st ->]. cbn [mbind result_bind]. eauto.
Qed.

End parsing_more.

Section symbolic_more.
Context `{Scalars}.

Lemma init_well_formed c (fs : list Symbol) (mm : gmap nat (list ndarray)) :
  (∀ q ms, mm !! q = Some ms → ms ≠ [] ∧ Forall is_2x2 ms) →
  well_formed mm (SymbolicTerm.target_qubits (SymbolicTerm.__init__ c fs mm)).
Proof.
  intros Hwf q Hq. apply sorted_keys_elem, elem_of_dom in Hq as [ms Hms].
  exists ms. split; [done|]. by apply (Hwf q).
Qed.

Lemma foldl_kron2_shape (a : ndarray) ms x y :
  Forall is_2x2 ms → shape a = [x; y] →
  shape (foldl np.kron2 a ms) = [x * 2 ^ length ms; y * 2 ^ length ms].
Proof.
  intros Hms. revert a x y.
  induction Hms as [|m ms Hm _ IH]; intros a x y Ha; cbn [foldl length].
  - rewrite Ha. f_equal; [|f_equal]; simpl; lia.
  - rewrite (IH _ (x * 2) (y * 2)).
    + rewrite Nat.pow_succ_r'. f_equal; [|f_equal]; lia.
    + unfold np.kron2, np.dim. unfold is_2x2 in Hm. by rewrite Ha, Hm.
Qed.

(** X15: the matrix of a freshly constructed symbolic term over non-empty
    lists of 2×2 matrices is the bare coefficient when the term has no
    qubit, and an array of shape [(2^k, 2^k)] for [k > 0] target qubits. *)
Theorem symbolic_matrix_shape (c : cplx) (fs : list Symbol)
    (mm : gmap nat (list ndarray)) :
  (∀ q ms, mm !! q = Some ms → ms ≠ [] ∧ Forall is_2x2 ms) →
  let t := SymbolicTerm.__init__ c fs mm in
  let k := length (SymbolicTerm.target_qubits t) in
  (k = 0 → (SymbolicTerm.matrix t).1 = Ok (PyNum c))
  ∧ (0 < k → ∃ m, (SymbolicTerm.matrix t).1 = Ok (PyTensor m)
                  ∧ shape m = [2 ^ k; 2 ^ k]).
Proof.
  intros Hwf t k.
  pose proof (init_well_formed c fs mm Hwf) as Hwf'. fold t in Hwf'.
  rewrite (matrix_fresh t) by done. cbn [fst]. subst k.
  destruct (SymbolicTerm.target_qubits t) as [|q qs] eqn:Hq.
  - split; [done|]. cbn [length]. lia.
  - split; [done|]. intros _. cbn [fmap list_fmap kron_chain].
    eexists. split; [done|].
    assert (H2 : ∀ q', q' ∈ q :: qs →
              is_2x2 (ordered_product (SymbolicTerm.matrix_map t !!! q'))).
    { intros q' Hq'. destruct (Hwf' q' Hq') as (ms & Hms & Hne & Hall).
      change (SymbolicTerm.matrix_map t) with mm.
      rewrite lookup_total_alt, Hms. cbn [default].
      by destruct (matrices_product_ok ms Hne Hall). }
    rewrite (foldl_kron2_shape _ _ 2 2).
    + rewrite length_fmap. cbn [length]. by rewrite Nat.pow_succ_r'.
    + apply Forall_fmap, Forall_forall. intros q' Hq'. apply H2. by right.
    + cbn [np.scale shape]. apply H2. left.
Qed.

(** X16: scaling a symbolic term whose matrix was never read gives a term
    with the coefficient multiplied by the scalar, whose qubits are the
    sorted keys of [matrix_map] and whose matrix is the Kronecker chain
    led by that new coefficient: the scalar enters as the leftmost factor
    of the chain. *)
Theorem scaled_fresh_matrix (t : SymbolicTerm.t) (x : cplx) :
  SymbolicTerm._matrix t = None →
  (∀ q ms, SymbolicTerm.matrix_map t !! q = Some ms
           → ms ≠ [] ∧ Forall is_2x2 ms) →
  let scaled := SymbolicTerm.__mul__ t x in
  SymbolicTerm.coefficient scaled = cmul (SymbolicTerm.coefficient t) x
  ∧ SymbolicTerm.target_qubits scaled
    = SymbolicTerm.sorted_keys (SymbolicTerm.matrix_map t)
  ∧ (SymbolicTerm.matrix scaled).1
    = Ok (kron_chain (cmul (SymbolicTerm.coefficient t) x)
            ((λ q, ordered_product (SymbolicTerm.matrix_map t !!! q))
               <$> SymbolicTerm.sorted_keys (SymbolicTerm.matrix_map t))).
Proof.
  intros Hnone Hwf scaled. split_and!; [done|done|].
  by apply mul_fresh.
Qed.

(** X19: a base term can be constructed with [None] for matrix, but
    scaling it raises [TypeError], and so does merging it into any term. *)
Theorem none_matrix_term (q : list nat) :
  let t := HamiltonianTerm.Make q None None PyNone in
  HamiltonianTerm.__init__ PyNone q = Ok t
  ∧ (∀ x, HamiltonianTerm.__mul__ t x = Raise TypeError)
  ∧ (∀ A, HamiltonianTerm.merge A t = Raise TypeError).
Proof.
  intros t. split_and!; [done|done|].
  intros A. unfold HamiltonianTerm.merge.
  by destruct (_ <? _).
Qed.

End symbolic_more.

(** * The further properties at concrete terms *)

Lemma well_shaped_ZZ : well_shaped term_ZZ.
Proof.
  split; [compute_done|].
  exists (np.kron2 pauli_Z pauli_Z). by split_and!.
Defined.

Lemma well_shaped_X : well_shaped term_X.
Proof. split; [compute_done|]. exists pauli_X. by split_and!. Defined.

Lemma merge_leading_qubits_witness :
  HamiltonianTerm.target_qubits term_ZZ
    = HamiltonianTerm.target_qubits term_X ++ [1]
  ∧ NoDup (HamiltonianTerm.target_qubits term_ZZ)
  ∧ (HamiltonianTerm.merge term_ZZ term_X
     = (sum ← np.add (PyTensor (np.kron2 pauli_Z pauli_Z))
                (PyTensor (np.kron2 pauli_X (np.eye (2 ^ 1))));
        Ok (HamiltonianTerm.Make [0; 1] None None sum))).
Proof.
  assert (Hnd : NoDup (HamiltonianTerm.target_qubits term_ZZ))
    by compute_done.
  split_and!; [done|exact Hnd|].
  exact (merge_leading_qubits term_ZZ term_X (np.kron2 pauli_Z pauli_Z)
           pauli_X [1] eq_refl Hnd eq_refl (conj eq_refl eq_refl)
           eq_refl (conj eq_refl eq_refl)).
Defined.

Lemma merge_trailing_qubits_witness :
  HamiltonianTerm.target_qubits term_ZZ
    = [0] ++ HamiltonianTerm.target_qubits term_X1
  ∧ NoDup (HamiltonianTerm.target_qubits term_ZZ)
  ∧ (HamiltonianTerm.merge term_ZZ term_X1
     = (sum ← np.add (PyTensor (np.kron2 pauli_Z pauli_Z))
                (PyTensor (np.kron2 (np.eye (2 ^ 1)) pauli_X));
        Ok (HamiltonianTerm.Make [0; 1] None None sum))).
Proof.
  assert (Hnd : NoDup (HamiltonianTerm.target_qubits term_ZZ))
    by compute_done.
  split_and!; [done|exact Hnd|].
  exact (merge_trailing_qubits term_ZZ term_X1 (np.kron2 pauli_Z pauli_Z)
           pauli_X [0] eq_refl Hnd eq_refl (conj eq_refl eq_refl)
           eq_refl (conj eq_refl eq_refl)).
Defined.

Lemma merge_same_qubits_witness :
  HamiltonianTerm.target_qubits term_XX
    = HamiltonianTerm.target_qubits term_ZZ
  ∧ NoDup (HamiltonianTerm.target_qubits term_ZZ)
  ∧ (HamiltonianTerm.merge term_ZZ term_XX
     = (sum ← np.add (PyTensor (np.kron2 pauli_Z pauli_Z))
                (PyTensor (np.kron2 pauli_X pauli_X));
        Ok (HamiltonianTerm.Make [0; 1] None None sum))).
Proof.
  assert (Hnd : NoDup (HamiltonianTerm.target_qubits term_ZZ))
    by compute_done.
  split_and!; [done|exact Hnd|].
  exact (merge_same_qubits term_ZZ term_XX (np.kron2 pauli_Z pauli_Z)
           (np.kron2 pauli_X pauli_X) eq_refl Hnd eq_refl
           (conj eq_refl eq_refl) eq_refl (conj eq_refl eq_refl)).
Defined.

Lemma merge_foreign_qubit_witness :
  HamiltonianTerm.__len__ term_X2 ≤ HamiltonianTerm.__len__ term_ZZ
  ∧ 2 ∈ HamiltonianTerm.target_qubits term_X2
  ∧ (2 ∉ HamiltonianTerm.target_qubits term_ZZ)
  ∧ HamiltonianTerm.merge term_ZZ term_X2 = Raise ValueError.
Proof.
  assert (H1 : HamiltonianTerm.__len__ term_X2
               ≤ HamiltonianTerm.__len__ term_ZZ) by (cbn; lia).
  assert (H2 : 2 ∈ HamiltonianTerm.target_qubits term_X2) by compute_done.
  assert (H3 : 2 ∉ HamiltonianTerm.target_qubits term_ZZ) by compute_done.
  split_and!; [exact H1|exact H2|exact H3|].
  exact (merge_foreign_qubit term_ZZ term_X2 pauli_X 2 H1 eq_refl eq_refl
           H2 H3).
Defined.

Lemma to_term_sums_members_witness :
  Forall well_shaped [term_ZZ; term_X]
  ∧ Forall (λ term, TermGroup.support term ⊆ TermGroup.support term_ZZ)
      [term_X]
  ∧ ∃ result m,
      TermGroup.to_term group_ZZ_X ∅ = Ok result
      ∧ HamiltonianTerm.target_qubits result = [0; 1]
      ∧ HamiltonianTerm.matrix result = PyTensor m
      ∧ is_operator 2 m
      ∧ ∀ r c, r < 4 → c < 4 →
          np.get2 m r c
          = cadd (np.get2 (np.kron2 pauli_Z pauli_Z) r c)
                 (embed [0; 1] [0] pauli_X r c).
Proof.
  assert (H1 : Forall well_shaped [term_ZZ; term_X]).
  { constructor; [apply well_shaped_ZZ|].
    constructor; [apply well_shaped_X|constructor]. }
  assert (H2 : Forall (λ term, TermGroup.support term
                               ⊆ TermGroup.support term_ZZ) [term_X]).
  { constructor; [compute_done|constructor]. }
  split_and!; [exact H1|exact H2|].
  exact (to_term_sums_members group_ZZ_X ∅ term_ZZ [term_X] eq_refl H1 H2).
Defined.

Lemma grouped_terms_merge_witness :
  Forall well_shaped [term_X; term_ZZ]
  ∧ group_ZZ_X ∈ TermGroup.from_terms [term_X; term_ZZ]
  ∧ ∃ merged, TermGroup.to_term group_ZZ_X ∅ = Ok merged
              ∧ TermGroup.support merged = {[0; 1]}.
Proof.
  assert (H1 : Forall well_shaped [term_X; term_ZZ]).
  { constructor; [apply well_shaped_X|].
    constructor; [apply well_shaped_ZZ|constructor]. }
  assert (H2 : group_ZZ_X ∈ TermGroup.from_terms [term_X; term_ZZ]).
  { assert (Hg : TermGroup.from_terms [term_X; term_ZZ] = [group_ZZ_X])
      by (by vm_compute).
    rewrite Hg. apply list_elem_of_here. }
  split_and!; [exact H1|exact H2|].
  exact (proj1 (grouped_terms_merge [term_X; term_ZZ] group_ZZ_X H1 H2) ∅).
Defined.

Lemma from_terms_first_fit_witness :
  TermGroup.from_terms [term_ZZ; term_X2] !! 0
    = Some (TermGroup.__init__ term_ZZ)
  ∧ TermGroup.from_terms [term_ZZ; term_X2] !! 1
    = Some (TermGroup.__init__ term_X2)
  ∧ ¬ (TermGroup.support term_X2
         ⊆ TermGroup.target_qubits (TermGroup.__init__ term_ZZ)).
Proof.
  assert (H0 : TermGroup.from_terms [term_ZZ; term_X2] !! 0
               = Some (TermGroup.__init__ term_ZZ)) by (by vm_compute).
  assert (H1 : TermGroup.from_terms [term_ZZ; term_X2] !! 1
               = Some (TermGroup.__init__ term_X2)) by (by vm_compute).
  split_and!; [exact H0|exact H1|].
  exact (from_terms_first_fit [term_ZZ; term_X2] 0 1 _ _ term_X2
           (Nat.lt_0_succ 0) H0 H1 (list_elem_of_here _ _)).
Defined.

Lemma seed_is_largest_witness :
  group_ZZ_X ∈ TermGroup.from_terms [term_X; term_ZZ]
  ∧ Forall (λ term, TermGroup.len term ≤ TermGroup.len term_ZZ) [term_X].
Proof.
  assert (H2 : group_ZZ_X ∈ TermGroup.from_terms [term_X; term_ZZ]).
  { assert (Hg : TermGroup.from_terms [term_X; term_ZZ] = [group_ZZ_X])
      by (by vm_compute).
    rewrite Hg. apply list_elem_of_here. }
  split; [exact H2|].
  exact (seed_is_largest [term_X; term_ZZ] group_ZZ_X term_ZZ [term_X]
           H2 eq_refl).
Defined.

(** [X(0) ** (-1)] *)
Lemma nonpositive_power_witness :
  let t := SymbolicTerm.__init__ (gint 1) [] {[0 := []]} in
  SymbolicTerm.from_factors (gint 1)
    (OrderedProduct [Pow (QiboSymbol (sym_X 0)) (IntegerExp (-1))]) None
  = Ok t
  ∧ (SymbolicTerm.matrix t).1 = Raise IndexError
  ∧ (SymbolicTerm.matrix (SymbolicTerm.matrix t).2).1 = Ok (PyNum (gint 1)).
Proof.
  intros t.
  destruct (nonpositive_power (gint 1) (sym_X 0) pauli_X (-1) eq_refl
              ltac:(lia)) as (H1 & _ & H3 & H4).
  split_and!; [exact H1| |exact H4].
  exact (f_equal fst H3).
Defined.

(** [2 * I * X(0)] has coefficient [2i]. *)
Lemma from_factors_coefficient_witness :
  let fs := [Atom ImaginaryUnit; Atom (QiboSymbol (sym_X 0))] in
  let t := SymbolicTerm.__init__ (0%Z, 2%Z) [sym_X 0] {[0 := [pauli_X]]} in
  SymbolicTerm.from_factors (gint 2) (OrderedProduct fs) None = Ok t
  ∧ SymbolicTerm.coefficient t = (0%Z, 2%Z).
Proof.
  intros fs t.
  assert (Ht : SymbolicTerm.from_factors (gint 2) (OrderedProduct fs) None
               = Ok t) by (by vm_compute).
  split; [exact Ht|].
  rewrite (from_factors_coefficient (gint 2) fs None t Ht). by vm_compute.
Defined.

(** [X(1) * X(0)] acts on qubits [(0, 1)]. *)
Lemma from_factors_support_witness :
  let fs := [Atom (QiboSymbol (sym_X 1)); Atom (QiboSymbol (sym_X 0))] in
  let t := SymbolicTerm.__init__ (gint 1) [sym_X 1; sym_X 0]
             {[0 := [pauli_X]; 1 := [pauli_X]]} in
  SymbolicTerm.from_factors (gint 1) (OrderedProduct fs) None = Ok t
  ∧ SymbolicTerm.factors t = [sym_X 1; sym_X 0]
  ∧ StronglySorted lt (SymbolicTerm.target_qubits t).
Proof.
  intros fs t.
  assert (Ht : SymbolicTerm.from_factors (gint 1) (OrderedProduct fs) None
               = Ok t) by (by vm_compute).
  destruct (from_factors_support (gint 1) fs None t Ht) as (H1 & H2 & _).
  split_and!; [exact Ht| |exact H2].
  rewrite H1. by vm_compute.
Defined.

Lemma map_XX_well_formed :
  ∀ q ms, ({[0 := [pauli_X]; 1 := [pauli_X]]} : gmap nat (list ndarray)) !! q
          = Some ms → ms ≠ [] ∧ Forall is_2x2 ms.
Proof.
  intros q ms Hq.
  destruct (decide (q = 0)) as [->|H0];
    [|destruct (decide (q = 1)) as [->|H1]]; simplify_map_eq.
  - split; [done|]. by repeat constructor.
  - split; [done|]. by repeat constructor.
Defined.

Lemma symbolic_matrix_shape_witness :
  let t := SymbolicTerm.__init__ (gint 2) [sym_X 0; sym_X 1]
             {[0 := [pauli_X]; 1 := [pauli_X]]} in
  0 < length (SymbolicTerm.target_qubits t)
  ∧ ∃ m, (SymbolicTerm.matrix t).1 = Ok (PyTensor m) ∧ shape m = [4; 4].
Proof.
  intros t.
  assert (Hk : 0 < length (SymbolicTerm.target_qubits t))
    by (vm_compute; lia).
  split; [exact Hk|].
  exact (proj2 (symbolic_matrix_shape (gint 2) [sym_X 0; sym_X 1] _
                  map_XX_well_formed) Hk).
Defined.

Lemma scaled_fresh_matrix_witness :
  let t := SymbolicTerm.__init__ (gint 2) [sym_X 0; sym_X 1]
             {[0 := [pauli_X]; 1 := [pauli_X]]} in
  SymbolicTerm._matrix t = None
  ∧ (SymbolicTerm.matrix (SymbolicTerm.__mul__ t (gint 3))).1
    = Ok (PyTensor (np.scale (gint 6) (np.kron2 pauli_X pauli_X))).
Proof.
  intros t. split; [reflexivity|].
  destruct (scaled_fresh_matrix t (gint 3) eq_refl map_XX_well_formed)
    as (_ & _ & ->).
  by vm_compute.
Defined.
